(** * winminer: the live-session core, embedded and checked against its
    specification.

    The development follows the Go sources:
    - the passive data shapes ([DeviceStatus], [DeviceEntry], [MachineEntry]);
    - the live state reconciler ([NewLiveState], [SetSystemInfo],
      [AddMachine], [Update]);
    - the envelope filter ([isInteresting]);
    - the message decoders ([checkMethodAndArgCount],
      [ParseStatusChangedMessage], [ParseSystemInfoMessage]);
    - the session handshake and its keep-alive loops ([newWebsocketClient],
      [close]);
    - the other decoders ([ParseClientConnectedMessage],
      [ParseAppClosedMessage], [ParseStateChangedMessage]), the reading of
      the socket ([parseMessage], [isInterestingChannel], [Read],
      [ReadNextInterestingMessages]), the address [connect] dials, and the
      websocket methods of the API client.

    Go values are modelled as follows.  A [string] is a sequence of bytes, an
    [int] or [int64] is a [Z] (wrap-around is written out where arithmetic
    happens), an [error] is a value of [error] and the [nil] error is [None].
    A slice of devices is a slice header into a store of device cells, because
    [Update] writes through a copy of the header; every other slice is only
    read or replaced as a whole by the code below and is modelled by its
    contents.  [time.Now()] is an input of the operation that reads it.

    A [LiveState] is one that [NewLiveState] made: its map is a map that
    was made.  The zero value of the struct, the map of which is nil and on
    which the write of [Update] panics, is not a state of the model.  The
    mutex [c.wsLock] of a session is not modelled either: it serialises the
    uses of the socket, which removes interleavings, so that what holds of
    every run of the model holds of every run of the code; the statements
    about sessions are of that kind. *)

From Stdlib Require Import ZArith Lia Ascii String.
From stdpp Require Import base decidable option list strings gmap pretty.

Open Scope string_scope.
Open Scope list_scope.
Open Scope nat_scope.

(** ** Errors *)

(** [errors.New], [fmt.Errorf] and [errors.Wrap] of github.com/pkg/errors.
    A decoding failure of encoding/json is opaque: only its text matters. *)
Inductive error : Type :=
  | errors_New (msg : string)
  | fmt_Errorf (text : string)
  | json_error (text : string)
  | errors_Wrap (cause : error) (msg : string).

(** The [Error()] method: a wrapped error prints its message, a colon and
    its cause. *)
Fixpoint Error (e : error) : string :=
  match e with
  | errors_New msg => msg
  | fmt_Errorf text => text
  | json_error text => text
  | errors_Wrap cause msg => msg +:+ ": " +:+ Error cause
  end.

(** A Go call either returns or panics; a panic ends the call it happens
    in and every call around it. *)
Inductive outcome (A : Type) : Type :=
  | Returns (a : A)
  | Panics (msg : string).
Arguments Returns {A} a.
Arguments Panics {A} msg.

#[global] Instance outcome_bind : MBind outcome := fun A B f m =>
  match m with
  | Returns a => f a
  | Panics msg => Panics msg
  end.

(** The index expression [l[k]]. *)
Definition index {A : Type} (l : list A) (k : nat) : outcome A :=
  match l !! k with
  | Some a => Returns a
  | None => Panics "index out of range"
  end.

(** ** Data shapes *)

(** [decimal.Decimal] of github.com/shopspring/decimal: value * 10 ^ exp. *)
Record Decimal : Type := { value : Z; exp : Z }.

(** [time.Time], as an instant on an integer time line. *)
Definition Time : Type := Z.

(** Mining status constants. *)
Definition StatusMining : Z := 8.
Definition StatusStoppingToo : Z := 10.
Definition StatusStopping : Z := 0.
Definition StatusStarting1 : Z := 2.
Definition StatusStarting2 : Z := 1.
Definition StatusStarting3 : Z := 5.
Definition StatusStarting4 : Z := 6.

Module DeviceStatus.
Record t : Type := mk {
  Status : Z;
  Tags : list string;
  Hashrates : list Decimal;
  Profits : list Decimal;
  Currency : string;
  ExtraData : string
}.
End DeviceStatus.

Module DeviceEntry.
(** The Go field [Type] is spelled [Type_]. *)
Record t : Type := mk {
  ID : string;
  Enabled : bool;
  Name : string;
  Type_ : string;
  Status : DeviceStatus.t
}.
End DeviceEntry.

(** A slice header over the store of device cells: the address of element 0
    and the length.  The capacity is left out, no device slice is ever
    appended to. *)
Record slice : Type := { ptr : nat; len : nat }.

Module MachineEntry.
Record t : Type := mk {
  MachineName : string;
  SID : string;
  ClientVersion : string;
  IsAdmin : bool;
  IsPortable : bool;
  Devices : slice;
  Key : string
}.
End MachineEntry.

(** The store of device cells, by address.  Go only ever reads the cells
    below the length of a slice, which are allocated; the other cells are
    never looked at.  Two slice headers that cover a common cell alias: a
    write through one is read through the other. *)
Definition Store : Type := nat -> DeviceEntry.t.

(** [sl[j]], as an address. *)
Definition cell (sl : slice) (j : nat) : nat := ptr sl + j.

(** [sl[j] = d]. *)
Definition store_write (h : Store) (a : nat) (d : DeviceEntry.t) : Store :=
  fun a' => if decide (a' = a) then d else h a'.

(** The devices of a machine, read through its slice header. *)
Definition devices (h : Store) (m : MachineEntry.t) : list DeviceEntry.t :=
  map (fun j => h (cell (MachineEntry.Devices m) j))
      (seq 0 (len (MachineEntry.Devices m))).


(** Modelled from the spec: the declaration of [StatusChangeContainer] is
    not among the sources; [Update] reads exactly these three fields of it,
    which the spec names machine id, device id and status. *)
Record StatusChangeContainer : Type := {
  MachineSID : string;
  DeviceID : string;
  Status : DeviceStatus.t
}.

(** ** Live state *)

(** The mutex of [LiveState] serialises the three operations; each one is a
    single transition of the state. *)
Record LiveState : Type := {
  machines : list MachineEntry.t;
  devicesLastUpdated : gmap string Time
}.

Definition NewLiveState : LiveState :=
  {| machines := []; devicesLastUpdated := ∅ |}.

Definition SetSystemInfo (entries : list MachineEntry.t) (s : LiveState)
  : LiveState :=
  {| machines := entries; devicesLastUpdated := ∅ |}.

(** [for i, m := range s.machines], from index [i] on, [ms] being the
    machines not yet visited. *)
Fixpoint AddMachine_range (entry : MachineEntry.t) (ms : list MachineEntry.t)
    (i : nat) (s : LiveState) : LiveState :=
  match ms with
  | [] =>
      {| machines := machines s ++ [entry];
         devicesLastUpdated := devicesLastUpdated s |}
  | m :: ms' =>
      if decide (MachineEntry.SID m = MachineEntry.SID entry)
      then {| machines := <[i := entry]> (machines s);
              devicesLastUpdated := devicesLastUpdated s |}
      else AddMachine_range entry ms' (S i) s
  end.

Definition AddMachine (entry : MachineEntry.t) (s : LiveState) : LiveState :=
  AddMachine_range entry (machines s) 0 s.

(** [d.Status = container.Status] on the copy [d] of a device. *)
Definition set_Status (d : DeviceEntry.t) (st : DeviceStatus.t)
  : DeviceEntry.t :=
  {| DeviceEntry.ID := DeviceEntry.ID d;
     DeviceEntry.Enabled := DeviceEntry.Enabled d;
     DeviceEntry.Name := DeviceEntry.Name d;
     DeviceEntry.Type_ := DeviceEntry.Type_ d;
     DeviceEntry.Status := st |}.

(** [for j, d := range m.Devices], from index [j] on, with [n] elements
    left.  [m] is the copy of [s.machines[i]] the outer loop made. *)
Fixpoint Update_devices (container : StatusChangeContainer) (now : Time)
    (i : nat) (m : MachineEntry.t) (j n : nat) (h : Store) (s : LiveState)
  : option error * Store * LiveState :=
  match n with
  | 0 => (Some (errors_New "device not found"), h, s)
  | S n' =>
      let d := h (cell (MachineEntry.Devices m) j) in
      if decide (DeviceEntry.ID d = DeviceID container)
      then
        let d := set_Status d (Status container) in
        let h := store_write h (cell (MachineEntry.Devices m) j) d in
        let s := {| machines := <[i := m]> (machines s);
                    devicesLastUpdated := devicesLastUpdated s |} in
        let s := {| machines := machines s;
                    devicesLastUpdated :=
                      <[DeviceID container := now]> (devicesLastUpdated s) |} in
        (None, h, s)
      else Update_devices container now i m (S j) n' h s
  end.

(** [for i, m := range s.machines], from index [i] on. *)
Fixpoint Update_machines (container : StatusChangeContainer) (now : Time)
    (ms : list MachineEntry.t) (i : nat) (h : Store) (s : LiveState)
  : option error * Store * LiveState :=
  match ms with
  | [] => (Some (errors_New "machine not found"), h, s)
  | m :: ms' =>
      if decide (MachineEntry.SID m = MachineSID container)
      then Update_devices container now i m 0
             (len (MachineEntry.Devices m)) h s
      else Update_machines container now ms' (S i) h s
  end.

(** [Update], [now] being what [time.Now()] returns. *)
Definition Update (container : StatusChangeContainer) (now : Time)
    (h : Store) (s : LiveState) : option error * Store * LiveState :=
  Update_machines container now (machines s) 0 h s.

(** ** Envelope filter *)

(** [strings.Split(s, sep)] for a separator of one byte, which [","] is:
    the pieces between the separators, one more than there are separators. *)
Fixpoint strings_Split (s : string) (sep : ascii) : list string :=
  match s with
  | EmptyString => [EmptyString]
  | String c s' =>
      if decide (c = sep) then EmptyString :: strings_Split s' sep
      else match strings_Split s' sep with
           | p :: ps => String c p :: ps
           | [] => [String c EmptyString]
           end
  end.

(** The slice expression [s[:1]]: it panics on the empty string. *)
Definition slice_to_1 (s : string) : outcome string :=
  match s with
  | EmptyString => Panics "slice bounds out of range [:1] with length 0"
  | String c _ => Returns (String c EmptyString)
  end.

(** [*strconv.NumError]. *)
Record NumError : Type := { Func : string; Num : string; Err : error }.

Definition ErrSyntax : error := errors_New "invalid syntax".
Definition ErrRange : error := errors_New "value out of range".

(** The value of a decimal digit, [None] for any other byte. *)
Definition digit_value (c : ascii) : option Z :=
  let n := Z.of_nat (nat_of_ascii c) in
  if decide (48 ≤ n ≤ 57)%Z then Some (n - 48)%Z else None.

(** The value of a run of decimal digits, [acc] being the value so far. *)
Fixpoint digits_value (s : string) (acc : Z) : option Z :=
  match s with
  | EmptyString => Some acc
  | String c s' =>
      match digit_value c with
      | Some d => digits_value s' (10 * acc + d)%Z
      | None => None
      end
  end.

(** [strconv.Atoi] with a 64-bit [int]: an optional sign, then one decimal
    digit or more, the value within the range of [int].  The value Go
    returns next to an error is left out, no caller here reads it. *)
Definition strconv_Atoi (s : string) : Z + NumError :=
  let syntax := inr {| Func := "Atoi"; Num := s; Err := ErrSyntax |} in
  let body :=
    match s with
    | String c s' =>
        if decide (c = "-"%char ∨ c = "+"%char) then s' else s
    | EmptyString => s
    end in
  match body with
  | EmptyString => syntax
  | String _ _ =>
      match digits_value body 0 with
      | None => syntax
      | Some n =>
          let v := match s with
                   | String "-"%char _ => (- n)%Z
                   | _ => n
                   end in
          if decide (- 2 ^ 63 ≤ v < 2 ^ 63)%Z then inl v
          else inr {| Func := "Atoi"; Num := s; Err := ErrRange |}
      end
  end.

(** [RawMessage]; an argument is a [json.RawMessage], [None] when it is the
    nil slice. *)
Record RawMessage : Type := {
  Host : string;
  Method : string;
  Arguments : list (option string)
}.

Record RawMessageContainer : Type := {
  Channel : string;
  Messages : list RawMessage
}.

(** [isInteresting].  The two warnings it logs are not part of its result. *)
Definition isInteresting (c : RawMessageContainer) : outcome bool :=
  let split := strings_Split (Channel c) ","%char in
  if decide (length split ≠ 5) then Returns false
  else
    part3 ← index split 2;
    first3 ← slice_to_1 part3;
    match strconv_Atoi first3 with
    | inr _ => Returns false
    | inl id1 =>
        part4 ← index split 3;
        first4 ← slice_to_1 part4;
        match strconv_Atoi first4 with
        | inr _ => Returns false
        | inl id2 => Returns (bool_decide (id1 = 2%Z) && bool_decide (id2 = 2%Z))
        end
    end.

(** ** Message decoders *)

Definition MethodSetSystemInfo : string := "SetSystemInfo".
Definition MethodStatusChanged : string := "StatusChanged".
Definition MethodStateChanged : string := "StateChanged".
Definition MethodAppClosed : string := "AppClosed".
Definition MethodClientConnected : string := "ClientConnected".

(** [json.RawMessage.MarshalJSON]: the bytes themselves, [null] for the nil
    slice, and never an error. *)
Definition MarshalJSON (m : option string) : string * option error :=
  (match m with Some bb => bb | None => "null" end, None).

Module StatusChangedMessage.
Record t : Type := mk {
  MachineSID : string;
  DeviceID : string;
  Status : DeviceStatus.t
}.
End StatusChangedMessage.

Section Decoders.

(** [json.Unmarshal] into a zero value of each type the decoders ask for.
    Decoding a machine allocates the array of its devices, so it takes the
    store and gives it back. *)
Variable json_Unmarshal_string : string -> string + error.
Variable json_Unmarshal_DeviceStatus : string -> DeviceStatus.t + error.
Variable json_Unmarshal_MachineEntry :
  string -> Store -> (MachineEntry.t + error) * Store.

Definition parseString (m : option string) : string * option error :=
  let (bb, err) := MarshalJSON m in
  match err with
  | Some e => ("", Some (errors_Wrap e "unable to marshal JSON"))
  | None =>
      match json_Unmarshal_string bb with
      | inr e => ("", Some (errors_Wrap e "unable to unmarshal as string"))
      | inl s => (s, None)
      end
  end.

Definition checkMethodAndArgCount (msg : RawMessage) (method : string)
    (argCount : nat) : option error :=
  if decide (Method msg ≠ method)
  then Some (fmt_Errorf ("not a " +:+ method +:+ " message"))
  else if decide (length (Arguments msg) ≠ argCount)
  then Some (fmt_Errorf ("expected " +:+ pretty argCount +:+ " arguments, got "
                         +:+ pretty (length (Arguments msg))))
  else None.

(** [ParseStatusChangedMessage]: the record it points to, or [None] for the
    nil pointer, and the error. *)
Definition ParseStatusChangedMessage (message : RawMessage)
  : outcome (option StatusChangedMessage.t * option error) :=
  match checkMethodAndArgCount message MethodStatusChanged 3 with
  | Some err => Returns (None, Some (errors_Wrap err "invalid message"))
  | None =>
      arg0 ← index (Arguments message) 0;
      let (machineSID, err) := parseString arg0 in
      match err with
      | Some err => Returns (None, Some (errors_Wrap err "unable to decode"))
      | None =>
          arg1 ← index (Arguments message) 1;
          let (deviceID, err) := parseString arg1 in
          match err with
          | Some err => Returns (None, Some (errors_Wrap err "unable to decode"))
          | None =>
              arg2 ← index (Arguments message) 2;
              let (bb3, err) := MarshalJSON arg2 in
              match err with
              | Some err =>
                  Returns (None, Some (errors_Wrap err "unable to marshal JSON"))
              | None =>
                  match json_Unmarshal_DeviceStatus bb3 with
                  | inr err =>
                      Returns (None, Some (errors_Wrap err "unable to decode"))
                  | inl s =>
                      Returns (Some {| StatusChangedMessage.MachineSID :=
                                         machineSID;
                                       StatusChangedMessage.DeviceID :=
                                         deviceID;
                                       StatusChangedMessage.Status := s |},
                               None)
                  end
              end
          end
      end
  end.

(** [ParseSystemInfoMessage]: the slice it returns, [None] for the nil
    slice, the error, and the store after decoding. *)
Definition ParseSystemInfoMessage (message : RawMessage) (h : Store)
  : outcome (option (list MachineEntry.t) * option error) * Store :=
  if decide (Method message ≠ MethodSetSystemInfo)
  then (Returns (None, Some (errors_New "not a SystemInfo message")), h)
  else if decide (length (Arguments message) ≠ 3)
  then (Returns (None, Some (errors_New "expected 3 arguments")), h)
  else
    match index (Arguments message) 2 with
    | Panics msg => (Panics msg, h)
    | Returns arg2 =>
        let (bb, _) := MarshalJSON arg2 in
        match json_Unmarshal_MachineEntry bb h with
        | (inr err, h') =>
            (Returns (None, Some (errors_Wrap err "unable to decode")), h')
        | (inl m, h') => (Returns (Some [m], None), h')
        end
    end.

End Decoders.

(** ** Session handshake and keep-alive *)

(** Arithmetic on [int64] wraps around. *)
Definition wrap64 (z : Z) : Z := ((z + 2 ^ 63) `mod` 2 ^ 64 - 2 ^ 63)%Z.

(** What [time.Now().UnixNano()] may return. *)
Definition is_int64 (z : Z) : Prop := (- 2 ^ 63 ≤ z < 2 ^ 63)%Z.

Module Auth2Response.
Record t : Type := mk { Host : string; Token : string }.
End Auth2Response.

(** [NegotiateResponse]; the handshake reads its connection token only, the
    other fields are left out. *)
Record NegotiateResponse : Type := { ConnectionToken : string }.

(** The requests a session sends, each with the arguments it is called
    with; [CallKeepAlive] is the frame written on the socket. *)
Inductive call : Type :=
  | CallAuth2
  | CallNegotiate (nonce : Z) (auth2Token hubBaseURL : string)
  | CallConnect (auth2Token hubBaseURL connectionToken : string)
  | CallStart (nonce : Z) (auth2Token hubBaseURL connectionToken : string)
  | CallPing (nonce : Z) (auth2Token hubBaseURL : string)
  | CallKeepAlive (I : Z).

(** What the server answers to the four requests of the handshake. *)
Record handshake_replies : Type := {
  auth2_reply : Auth2Response.t + error;
  negotiate_reply : NegotiateResponse + error;
  connect_reply : option error;
  start_reply : option error
}.

(** A channel that carries no buffered value is open or closed. *)
Inductive chan : Type := ChanOpen | ChanClosed.

(** Where a background goroutine stands: at its [select], blocked sending
    an error on [client.err], or returned (its deferred [wg.Done()] ran). *)
Inductive goroutine : Type :=
  | AtSelect
  | Sending (e : error)
  | Exited.

(** Where a call of [close] stands, by the statement it runs next. *)
Inductive close_pc : Type :=
  | AtSelectClosed
  | AtCloseClosed
  | AtWait
  | AtWsClose
  | AtCloseErr.

Inductive caller_pc : Type :=
  | Idle
  | InClose (pc : close_pc).

(** A session: the variables the two goroutines of [newWebsocketClient]
    capture, the fields of [WebsocketClient], where each goroutine and the
    caller stand, and the requests sent so far, oldest first. *)
Record Session : Type := {
  nonce : Z;
  auth2Token : string;
  hubBaseURL : string;
  currentNonce : Z;
  closed : chan;
  err : chan;
  ws_open : bool;
  wg : nat;
  pinger : goroutine;
  keeper : goroutine;
  caller : caller_pc;
  closes_returned : nat;
  panicked : bool;
  calls : list call
}.

(** [newWebsocketClient], [now] being what [time.Now().UnixNano()] returns:
    the requests it sent, and the session or the error. *)
Definition newWebsocketClient (now : Z) (r : handshake_replies)
  : list call * (Session + error) :=
  let nonce := (now `quot` 1000000)%Z in
  match auth2_reply r with
  | inr err => ([CallAuth2], inr (errors_Wrap err "unable to auth2"))
  | inl auth2Resp =>
      let hubBaseURL := Auth2Response.Host auth2Resp in
      let auth2Token := Auth2Response.Token auth2Resp in
      let log := [CallAuth2; CallNegotiate nonce auth2Token hubBaseURL] in
      match negotiate_reply r with
      | inr err => (log, inr (errors_Wrap err "unable to negotiate"))
      | inl negResp =>
          let connectionToken := ConnectionToken negResp in
          let nonce := wrap64 (nonce + 1) in
          let log := log ++ [CallConnect auth2Token hubBaseURL connectionToken] in
          match connect_reply r with
          | Some err => (log, inr (errors_Wrap err "unable to connect"))
          | None =>
              let log :=
                log ++ [CallStart nonce auth2Token hubBaseURL connectionToken] in
              match start_reply r with
              | Some err => (log, inr (errors_Wrap err "unable to start"))
              | None =>
                  (log, inl {| nonce := nonce;
                               auth2Token := auth2Token;
                               hubBaseURL := hubBaseURL;
                               currentNonce := 1;
                               closed := ChanOpen;
                               err := ChanOpen;
                               ws_open := true;
                               wg := 2;
                               pinger := AtSelect;
                               keeper := AtSelect;
                               caller := Idle;
                               closes_returned := 0;
                               panicked := false;
                               calls := log |})
              end
          end
      end
  end.

(** What happens next in a session.  A tick comes with the reply to the
    request it triggers. *)
Inductive event : Type :=
  | EvPingTick (reply : option error)
  | EvPingStop
  | EvKeepAliveTick (reply : option error)
  | EvKeepAliveStop
  | EvReceiveErr (from_pinger : bool)
  | EvSendOnClosed (from_pinger : bool)
  | EvCloseCall
  | EvCloseStep.

Definition set_pinger (g : goroutine) (s : Session) : Session :=
  {| nonce := nonce s; auth2Token := auth2Token s; hubBaseURL := hubBaseURL s;
     currentNonce := currentNonce s; closed := closed s; err := err s;
     ws_open := ws_open s; wg := wg s; pinger := g; keeper := keeper s;
     caller := caller s; closes_returned := closes_returned s;
     panicked := panicked s; calls := calls s |}.

Definition set_keeper (g : goroutine) (s : Session) : Session :=
  {| nonce := nonce s; auth2Token := auth2Token s; hubBaseURL := hubBaseURL s;
     currentNonce := currentNonce s; closed := closed s; err := err s;
     ws_open := ws_open s; wg := wg s; pinger := pinger s; keeper := g;
     caller := caller s; closes_returned := closes_returned s;
     panicked := panicked s; calls := calls s |}.

Definition set_caller (c : caller_pc) (s : Session) : Session :=
  {| nonce := nonce s; auth2Token := auth2Token s; hubBaseURL := hubBaseURL s;
     currentNonce := currentNonce s; closed := closed s; err := err s;
     ws_open := ws_open s; wg := wg s; pinger := pinger s; keeper := keeper s;
     caller := c; closes_returned := closes_returned s;
     panicked := panicked s; calls := calls s |}.

(** [wg.Done()]. *)
Definition wg_Done (s : Session) : Session :=
  {| nonce := nonce s; auth2Token := auth2Token s; hubBaseURL := hubBaseURL s;
     currentNonce := currentNonce s; closed := closed s; err := err s;
     ws_open := ws_open s; wg := wg s - 1; pinger := pinger s;
     keeper := keeper s; caller := caller s;
     closes_returned := closes_returned s; panicked := panicked s;
     calls := calls s |}.

(** A panic of any goroutine. *)
Definition panic (s : Session) : Session :=
  {| nonce := nonce s; auth2Token := auth2Token s; hubBaseURL := hubBaseURL s;
     currentNonce := currentNonce s; closed := closed s; err := err s;
     ws_open := ws_open s; wg := wg s; pinger := pinger s; keeper := keeper s;
     caller := caller s; closes_returned := closes_returned s;
     panicked := true; calls := calls s |}.

(** [close()] returns to its caller. *)
Definition close_returns (s : Session) : Session :=
  {| nonce := nonce s; auth2Token := auth2Token s; hubBaseURL := hubBaseURL s;
     currentNonce := currentNonce s; closed := closed s; err := err s;
     ws_open := ws_open s; wg := wg s; pinger := pinger s; keeper := keeper s;
     caller := Idle; closes_returned := S (closes_returned s);
     panicked := panicked s; calls := calls s |}.

(** The ping goroutine takes the tick: [nonce++], then [c.ping]. *)
Definition ping_tick (reply : option error) (s : Session) : Session :=
  let n := wrap64 (nonce s + 1) in
  {| nonce := n; auth2Token := auth2Token s; hubBaseURL := hubBaseURL s;
     currentNonce := currentNonce s; closed := closed s; err := err s;
     ws_open := ws_open s; wg := wg s;
     pinger := match reply with
               | Some e => Sending (errors_Wrap e "unable to ping signalr")
               | None => AtSelect
               end;
     keeper := keeper s; caller := caller s;
     closes_returned := closes_returned s; panicked := panicked s;
     calls := calls s ++ [CallPing n (auth2Token s) (hubBaseURL s)] |}.

(** [currentNonce++] of the keep-alive goroutine. *)
Definition keepalive_next (s : Session) : Session :=
  {| nonce := nonce s; auth2Token := auth2Token s; hubBaseURL := hubBaseURL s;
     currentNonce := wrap64 (currentNonce s + 1); closed := closed s;
     err := err s; ws_open := ws_open s; wg := wg s; pinger := pinger s;
     keeper := AtSelect; caller := caller s;
     closes_returned := closes_returned s; panicked := panicked s;
     calls := calls s |}.

(** The keep-alive goroutine takes the tick: it writes its frame. *)
Definition keepalive_tick (reply : option error) (s : Session) : Session :=
  let s' :=
    {| nonce := nonce s; auth2Token := auth2Token s;
       hubBaseURL := hubBaseURL s; currentNonce := currentNonce s;
       closed := closed s; err := err s; ws_open := ws_open s; wg := wg s;
       pinger := pinger s; keeper := keeper s; caller := caller s;
       closes_returned := closes_returned s; panicked := panicked s;
       calls := calls s ++ [CallKeepAlive (currentNonce s)] |} in
  match reply with
  | Some e => set_keeper (Sending (errors_Wrap e "unable to ping WSS")) s'
  | None => keepalive_next s'
  end.

(** One statement of [close()]. *)
Definition close_step (pc : close_pc) (s : Session) : option Session :=
  match pc with
  | AtSelectClosed =>
      match closed s with
      | ChanClosed => Some (close_returns s)
      | ChanOpen => Some (set_caller (InClose AtCloseClosed) s)
      end
  | AtCloseClosed =>
      match closed s with
      | ChanClosed => Some (panic s)
      | ChanOpen =>
          Some (set_caller (InClose AtWait)
            {| nonce := nonce s; auth2Token := auth2Token s;
               hubBaseURL := hubBaseURL s; currentNonce := currentNonce s;
               closed := ChanClosed; err := err s; ws_open := ws_open s;
               wg := wg s; pinger := pinger s; keeper := keeper s;
               caller := caller s; closes_returned := closes_returned s;
               panicked := panicked s; calls := calls s |})
      end
  | AtWait =>
      match wg s with
      | 0 => Some (set_caller (InClose AtWsClose) s)
      | S _ => None
      end
  | AtWsClose =>
      Some (set_caller (InClose AtCloseErr)
        {| nonce := nonce s; auth2Token := auth2Token s;
           hubBaseURL := hubBaseURL s; currentNonce := currentNonce s;
           closed := closed s; err := err s; ws_open := false; wg := wg s;
           pinger := pinger s; keeper := keeper s; caller := caller s;
           closes_returned := closes_returned s; panicked := panicked s;
           calls := calls s |})
  | AtCloseErr =>
      match err s with
      | ChanClosed => Some (panic s)
      | ChanOpen =>
          Some (close_returns
            {| nonce := nonce s; auth2Token := auth2Token s;
               hubBaseURL := hubBaseURL s; currentNonce := currentNonce s;
               closed := closed s; err := ChanClosed; ws_open := ws_open s;
               wg := wg s; pinger := pinger s; keeper := keeper s;
               caller := caller s; closes_returned := closes_returned s;
               panicked := panicked s; calls := calls s |})
      end
  end.

(** One step of a session; [None] when the event cannot happen in the
    state.  Nothing runs after a panic. *)
Definition step (e : event) (s : Session) : option Session :=
  if panicked s then None
  else
    match e with
    | EvPingTick reply =>
        match pinger s with
        | AtSelect => Some (ping_tick reply s)
        | _ => None
        end
    | EvPingStop =>
        match pinger s, closed s with
        | AtSelect, ChanClosed => Some (wg_Done (set_pinger Exited s))
        | _, _ => None
        end
    | EvKeepAliveTick reply =>
        match keeper s with
        | AtSelect => Some (keepalive_tick reply s)
        | _ => None
        end
    | EvKeepAliveStop =>
        match keeper s, closed s with
        | AtSelect, ChanClosed => Some (wg_Done (set_keeper Exited s))
        | _, _ => None
        end
    | EvReceiveErr true =>
        match pinger s, err s with
        | Sending _, ChanOpen => Some (set_pinger AtSelect s)
        | _, _ => None
        end
    | EvReceiveErr false =>
        match keeper s, err s with
        | Sending _, ChanOpen => Some (keepalive_next s)
        | _, _ => None
        end
    | EvSendOnClosed true =>
        match pinger s, err s with
        | Sending _, ChanClosed => Some (panic s)
        | _, _ => None
        end
    | EvSendOnClosed false =>
        match keeper s, err s with
        | Sending _, ChanClosed => Some (panic s)
        | _, _ => None
        end
    | EvCloseCall =>
        match caller s with
        | Idle => Some (set_caller (InClose AtSelectClosed) s)
        | InClose _ => None
        end
    | EvCloseStep =>
        match caller s with
        | InClose pc => close_step pc s
        | Idle => None
        end
    end.

(** A run of a session, event after event. *)
Fixpoint steps (evs : list event) (s : Session) : option Session :=
  match evs with
  | [] => Some s
  | e :: evs' =>
      match step e s with
      | Some s' => steps evs' s'
      | None => None
      end
  end.

(** ** Vocabulary of the statements *)

(** A caller of the reconciler, one operation after the other.  The
    arrays a caller hands over later on are cells of the store that no
    machine of the state reaches yet. *)
Inductive op : Type :=
  | OpSetSystemInfo (entries : list MachineEntry.t)
  | OpAddMachine (entry : MachineEntry.t)
  | OpUpdate (container : StatusChangeContainer) (now : Time).

Definition apply_op (o : op) (hs : Store * LiveState) : Store * LiveState :=
  match o with
  | OpSetSystemInfo entries => (hs.1, SetSystemInfo entries hs.2)
  | OpAddMachine entry => (hs.1, AddMachine entry hs.2)
  | OpUpdate container now =>
      let r := Update container now hs.1 hs.2 in (r.1.2, r.2)
  end.

Definition run (ops : list op) (hs : Store * LiveState) : Store * LiveState :=
  fold_left (fun hs o => apply_op o hs) ops hs.

(** The device id [id] names a device of the machine [m]. *)
Definition has_device (h : Store) (m : MachineEntry.t) (id : string) : Prop :=
  Exists (fun d => DeviceEntry.ID d = id) (devices h m).

(** The invariant the specification gives for the snapshot: every key of
    the timestamp map names a device of exactly one machine of the list
    (machines are told apart by their position). *)
Definition timestamps_in_exactly_one_machine (hs : Store * LiveState) : Prop :=
  ∀ id, is_Some (devicesLastUpdated hs.2 !! id) →
    ∃ i, (∃ m, machines hs.2 !! i = Some m ∧ has_device hs.1 m id)
         ∧ ∀ i', (∃ m, machines hs.2 !! i' = Some m ∧ has_device hs.1 m id)
                 → i' = i.

(** What the code keeps of it: every key names a device of some machine. *)
Definition timestamps_in_some_machine (hs : Store * LiveState) : Prop :=
  ∀ id, is_Some (devicesLastUpdated hs.2 !! id) →
    Exists (fun m => has_device hs.1 m id) (machines hs.2).

(** [AddMachine] of [entry] keeps the devices of the machine it overwrites:
    when a machine of the list carries the SID of [entry], [entry] has a
    device for each device id of the first such machine.  It holds when no
    machine carries the SID. *)
Definition keeps_devices (entry : MachineEntry.t) (hs : Store * LiveState)
  : Prop :=
  match list_find (fun m => MachineEntry.SID m = MachineEntry.SID entry)
          (machines hs.2) with
  | Some (_, m) =>
      Forall (fun d => has_device hs.1 entry (DeviceEntry.ID d))
        (devices hs.1 m)
  | None => True
  end.

(** Every [AddMachine] of a sequence of operations keeps the devices of the
    machine it overwrites. *)
Fixpoint adds_keep_devices (ops : list op) (hs : Store * LiveState) : Prop :=
  match ops with
  | [] => True
  | o :: ops' =>
      match o with
      | OpAddMachine entry => keeps_devices entry hs
      | _ => True
      end
      ∧ adds_keep_devices ops' (apply_op o hs)
  end.

(** [strings.Join(parts, sep)], to state what [strings_Split] computes. *)
Fixpoint strings_Join (parts : list string) (sep : ascii) : string :=
  match parts with
  | [] => EmptyString
  | [p] => p
  | p :: ps => p +:+ String sep (strings_Join ps sep)
  end.

(** The bytes of [s], none of which is [sep]. *)
Fixpoint free_of (sep : ascii) (s : string) : Prop :=
  match s with
  | EmptyString => True
  | String c s' => c ≠ sep ∧ free_of sep s'
  end.

(** The nonce a request carries, for the requests of the handshake and
    ping flow that carry one. *)
Definition call_nonce (c : call) : option Z :=
  match c with
  | CallNegotiate nonce _ _ => Some nonce
  | CallStart nonce _ _ _ => Some nonce
  | CallPing nonce _ _ => Some nonce
  | _ => None
  end.

Definition nonces (log : list call) : list Z := omap call_nonce log.

(** The requests of a log that carry a nonce, in the order they were sent. *)
Definition nonce_calls (log : list call) : list call :=
  filter (fun c => is_Some (call_nonce c)) log.

(** The requests with a nonce of a session that made [n] pings, the
    nonces wrapped as the code computes them: negotiate, start, and the
    pings in order. *)
Definition nonce_calls_after (t : Z) (tok host ctok : string) (n : nat)
  : list call :=
  CallNegotiate t tok host
  :: CallStart (wrap64 (t + 1)) tok host ctok
  :: ((fun k => CallPing (wrap64 (t + 2 + Z.of_nat k)) tok host) <$> seq 0 n).

(** The same without wrapping: the nonces count up from [t]. *)
Definition nonce_calls_counting (t : Z) (tok host ctok : string) (n : nat)
  : list call :=
  CallNegotiate t tok host
  :: CallStart (t + 1) tok host ctok
  :: ((fun k => CallPing (t + 2 + Z.of_nat k) tok host) <$> seq 0 n).

(** The session has made some number of pings since its handshake, and
    its nonce variable holds the nonce of the last request. *)
Definition counts_pings (t : Z) (tok host ctok : string) (s : Session)
  : Prop :=
  ∃ n, nonce_calls (calls s) = nonce_calls_after t tok host ctok n
       ∧ nonce s = wrap64 (t + 1 + Z.of_nat n)
       ∧ auth2Token s = tok ∧ hubBaseURL s = host.

(** What a session looks like to everyone but the caller of [close]: all
    of it but where the caller stands and how many calls returned. *)
Definition shared (s : Session)
  : Z * Z * chan * chan * bool * nat * goroutine * goroutine * bool
    * list call :=
  (nonce s, currentNonce s, closed s, err s, ws_open s, wg s, pinger s,
   keeper s, panicked s, calls s).

(** The goroutines that have not returned. *)
Definition running (s : Session) : nat :=
  (match pinger s with Exited => 0 | _ => 1 end)
  + (match keeper s with Exited => 0 | _ => 1 end).

(** The three phases of a session: open, from its start until [close]
    closes [c.closed]; closing, while the first call of [close] waits for
    the goroutines and releases the socket; closed, from the moment that
    call closed [c.err]. *)
Definition phase_open (s : Session) : Prop :=
  closed s = ChanOpen ∧ err s = ChanOpen ∧ ws_open s = true
  ∧ pinger s ≠ Exited ∧ keeper s ≠ Exited ∧ wg s = 2
  ∧ closes_returned s = 0
  ∧ (caller s = Idle ∨ caller s = InClose AtSelectClosed
     ∨ caller s = InClose AtCloseClosed).

Definition phase_closing (s : Session) : Prop :=
  closed s = ChanClosed ∧ err s = ChanOpen ∧ wg s = running s
  ∧ closes_returned s = 0
  ∧ (caller s = InClose AtWait
     ∨ (caller s = InClose AtWsClose ∧ wg s = 0)
     ∨ (caller s = InClose AtCloseErr ∧ wg s = 0 ∧ ws_open s = false)).

Definition phase_closed (s : Session) : Prop :=
  closed s = ChanClosed ∧ err s = ChanClosed ∧ ws_open s = false
  ∧ pinger s = Exited ∧ keeper s = Exited ∧ wg s = 0
  ∧ (1 ≤ closes_returned s)%nat
  ∧ (caller s = Idle ∨ caller s = InClose AtSelectClosed).

Definition session_invariant (s : Session) : Prop :=
  panicked s = false ∧ (phase_open s ∨ phase_closing s ∨ phase_closed s).

(** ** Sample data *)

(** Sample data for the concrete instances below: a machine [rig sid sl]
    whose devices are the cells [sl] of [sample_store], which holds the
    devices [gpu0], [gpu1] and [gpu2] at the addresses 0, 1 and 2 and two
    more devices [gpu0] and [gpu1], of another machine, at 3 and 4. *)
Definition idle : DeviceStatus.t :=
  DeviceStatus.mk StatusStopping [] [] [] "" "".

Definition mining : DeviceStatus.t :=
  DeviceStatus.mk StatusMining ["fast"] [{| value := 305; exp := -1 |}]
    [{| value := 12; exp := -2 |}] "ETH" "".

Definition gpu (id : string) : DeviceEntry.t :=
  DeviceEntry.mk id true "GeForce" "GPU" idle.

Definition sample_store : Store := fun a =>
  match a with
  | 0 => gpu "gpu0"
  | 1 => gpu "gpu1"
  | 2 => gpu "gpu2"
  | 3 => gpu "gpu0"
  | 4 => gpu "gpu1"
  | _ => gpu ""
  end.

Definition rig (sid : string) (sl : slice) : MachineEntry.t :=
  MachineEntry.mk "rig" sid "1.4" false false sl "".

(** A decoder for the concrete instances below.  It knows one JSON value:
    [null], which [json.Unmarshal] decodes into the zero value it is given
    without an error, allocating nothing. *)
Definition Unmarshal_null {A : Type} (zero : A) (bb : string) : A + error :=
  if decide (bb = "null") then inl zero
  else inr (json_error "invalid character").

Definition zero_DeviceStatus : DeviceStatus.t :=
  DeviceStatus.mk 0 [] [] [] "" "".

Definition zero_MachineEntry : MachineEntry.t :=
  MachineEntry.mk "" "" "" false false {| ptr := 0; len := 0 |} "".

Definition Unmarshal_null_MachineEntry (bb : string) (h : Store)
  : (MachineEntry.t + error) * Store :=
  (Unmarshal_null zero_MachineEntry bb, h).

(** The JSON object of a machine of which only the SID is given, and the
    machine it decodes to: the other fields are left at their zero value,
    and nothing is allocated. *)
Definition sample_machine_json : string :=
  let q := String (ascii_of_nat 34) EmptyString in
  "{" +:+ q +:+ "sid" +:+ q +:+ ":" +:+ q +:+ "rig-1" +:+ q +:+ "}".

Definition sample_machine : MachineEntry.t :=
  MachineEntry.mk "" "rig-1" "" false false {| ptr := 0; len := 0 |} "".

(** A decoder that knows that object and [null]. *)
Definition Unmarshal_sample_MachineEntry (bb : string) (h : Store)
  : (MachineEntry.t + error) * Store :=
  if decide (bb = sample_machine_json) then (inl sample_machine, h)
  else Unmarshal_null_MachineEntry bb h.

(** Replies of a server that accepts the handshake. *)
Definition accepting : handshake_replies :=
  {| auth2_reply := inl (Auth2Response.mk "https://hub.example" "tok");
     negotiate_reply := inl {| ConnectionToken := "conn" |};
     connect_reply := None;
     start_reply := None |}.

(** A reading of the clock, in nanoseconds, for the instances below. *)
Definition sample_now : Z := 1700000000123456789.

(** A session that pings three times, the second ping failing and its
    error being read, with a keep-alive in between. *)
Definition pinging : list event :=
  [EvPingTick None; EvKeepAliveTick None;
   EvPingTick (Some (errors_New "did not receive a pong response"));
   EvReceiveErr true; EvPingTick None].

(** A session that pings once and is then closed: the call of [close]
    closes [c.closed], both goroutines see it and return, and the call
    goes on to release the socket and close [c.err]. *)
Definition closing_once : list event :=
  [EvPingTick None; EvCloseCall; EvCloseStep; EvCloseStep; EvPingStop;
   EvKeepAliveStop; EvCloseStep; EvCloseStep; EvCloseStep].

(** ** Vocabulary of the further statements *)

(** The SIDs of the machines of a state, in order. *)
Definition SIDs (s : LiveState) : list string :=
  MachineEntry.SID <$> machines s.

(** A state built by [AddMachine] alone: the entries are added one after
    the other to a fresh state. *)
Definition add_all (entries : list MachineEntry.t) : LiveState :=
  fold_left (fun s entry => AddMachine entry s) entries NewLiveState.

(** The bytes that an argument of a message holds: its own, and [null]
    for the argument that is the nil slice. *)
Definition bytes_of (a : option string) : string :=
  match a with
  | Some bb => bb
  | None => "null"
  end.

(** ** The other message decoders *)

Module ClientConnectedMessage.
Record t : Type := mk { ClientID : string }.
End ClientConnectedMessage.

Module AppClosedMessage.
Record t : Type := mk { MachineSID : string; ClientID : string }.
End AppClosedMessage.

Module StateChangedMessage.
Record t : Type := mk {
  MachineSID : string;
  DeviceID : string;
  Enabled : bool
}.
End StateChangedMessage.

Section More_decoders.

Variable json_Unmarshal_string : string -> string + error.
Variable json_Unmarshal_bool : string -> bool + error.

Definition parseBool (m : option string) : bool * option error :=
  let (bb, err) := MarshalJSON m in
  match err with
  | Some e => (false, Some (errors_Wrap e "unable to marshal JSON"))
  | None =>
      match json_Unmarshal_bool bb with
      | inr e => (false, Some (errors_Wrap e "unable to unmarshal as bool"))
      | inl b => (b, None)
      end
  end.

Definition ParseClientConnectedMessage (message : RawMessage)
  : outcome (option ClientConnectedMessage.t * option error) :=
  match checkMethodAndArgCount message MethodClientConnected 1 with
  | Some err => Returns (None, Some (errors_Wrap err "invalid message"))
  | None =>
      arg0 ← index (Arguments message) 0;
      let (clientID, err) := parseString json_Unmarshal_string arg0 in
      match err with
      | Some err => Returns (None, Some (errors_Wrap err "unable to decode"))
      | None =>
          Returns (Some {| ClientConnectedMessage.ClientID := clientID |},
                   None)
      end
  end.

Definition ParseAppClosedMessage (message : RawMessage)
  : outcome (option AppClosedMessage.t * option error) :=
  match checkMethodAndArgCount message MethodAppClosed 2 with
  | Some err => Returns (None, Some (errors_Wrap err "invalid message"))
  | None =>
      arg0 ← index (Arguments message) 0;
      let (machineSID, err) := parseString json_Unmarshal_string arg0 in
      match err with
      | Some err => Returns (None, Some (errors_Wrap err "unable to decode"))
      | None =>
          arg1 ← index (Arguments message) 1;
          let (clientID, err) := parseString json_Unmarshal_string arg1 in
          match err with
          | Some err =>
              Returns (None, Some (errors_Wrap err "unable to decode"))
          | None =>
              Returns (Some {| AppClosedMessage.MachineSID := machineSID;
                               AppClosedMessage.ClientID := clientID |},
                       None)
          end
      end
  end.

Definition ParseStateChangedMessage (message : RawMessage)
  : outcome (option StateChangedMessage.t * option error) :=
  match checkMethodAndArgCount message MethodStateChanged 3 with
  | Some err => Returns (None, Some (errors_Wrap err "invalid message"))
  | None =>
      arg0 ← index (Arguments message) 0;
      let (machineSID, err) := parseString json_Unmarshal_string arg0 in
      match err with
      | Some err => Returns (None, Some (errors_Wrap err "unable to decode"))
      | None =>
          arg1 ← index (Arguments message) 1;
          let (deviceID, err) := parseString json_Unmarshal_string arg1 in
          match err with
          | Some err =>
              Returns (None, Some (errors_Wrap err "unable to decode"))
          | None =>
              arg2 ← index (Arguments message) 2;
              let (enabled, err) := parseBool arg2 in
              match err with
              | Some err =>
                  Returns (None, Some (errors_Wrap err "unable to decode"))
              | None =>
                  Returns (Some {| StateChangedMessage.MachineSID :=
                                     machineSID;
                                   StateChangedMessage.DeviceID := deviceID;
                                   StateChangedMessage.Enabled := enabled |},
                           None)
              end
          end
      end
  end.

End More_decoders.

(** A call returned the pair of a value, or nil, and an error, or nil,
    exactly one of the two being nil. *)
Definition value_or_error {A : Type} (r : outcome (option A * option error))
  : Prop :=
  ∃ v e, r = Returns (v, e) ∧ (is_Some v ↔ e = None).

(** What a decoder made of a message: whether it returned a value, and the
    error. *)
Definition verdict {A : Type} (r : outcome (option A * option error))
  : outcome (bool * option error) :=
  match r with
  | Returns (v, e) => Returns (bool_decide (is_Some v), e)
  | Panics msg => Panics msg
  end.

Section All_decoders.

Variable json_Unmarshal_string : string -> string + error.
Variable json_Unmarshal_bool : string -> bool + error.
Variable json_Unmarshal_DeviceStatus : string -> DeviceStatus.t + error.
Variable json_Unmarshal_MachineEntry :
  string -> Store -> (MachineEntry.t + error) * Store.

(** The five decoders of the package, each under the method constant it
    checks for, given one message. *)
Definition decoders (message : RawMessage) (h : Store)
  : list (string * outcome (bool * option error)) :=
  [ (MethodClientConnected,
     verdict (ParseClientConnectedMessage json_Unmarshal_string message));
    (MethodAppClosed,
     verdict (ParseAppClosedMessage json_Unmarshal_string message));
    (MethodStateChanged,
     verdict (ParseStateChangedMessage json_Unmarshal_string
                json_Unmarshal_bool message));
    (MethodStatusChanged,
     verdict (ParseStatusChangedMessage json_Unmarshal_string
                json_Unmarshal_DeviceStatus message));
    (MethodSetSystemInfo,
     verdict (ParseSystemInfoMessage json_Unmarshal_MachineEntry
                message h).1) ].

End All_decoders.

(** ** Reading the socket *)

(** [websocket.TextMessage] of github.com/gorilla/websocket. *)
Definition TextMessage : Z := 1.

(** What a call of [Read] returns: the message type, the bytes, of which
    only the length and the decoding are looked at, so that the nil slice is
    the empty string, and the error. *)
Definition read_result : Type := Z * string * option error.

Section Reading.

(** [json.Unmarshal] into a zero [RawMessageContainer]. *)
Variable json_Unmarshal_RawMessageContainer :
  string -> RawMessageContainer + error.

Definition parseMessage (b : string)
  : option RawMessageContainer * option error :=
  if decide (String.length b < 10)
  then (None, Some (errors_New "message too short"))
  else
    match json_Unmarshal_RawMessageContainer b with
    | inr err => (None, Some (errors_Wrap err "unable to parse message"))
    | inl r => (Some r, None)
    end.

(** [isInterestingChannel].  The warning it logs is not part of its
    result. *)
Definition isInterestingChannel (b : string) : outcome bool :=
  if decide (String.length b < 10) then Returns false
  else
    match json_Unmarshal_RawMessageContainer b with
    | inr _ => Returns false
    | inl r => isInteresting r
    end.

(** [ReadNextInterestingMessages], given what the calls of [Read] return,
    one after the other: [None] while the loop asks for a further [Read]. *)
Fixpoint ReadNextInterestingMessages (reads : list read_result)
  : option (outcome (option RawMessageContainer * option error)) :=
  match reads with
  | [] => None
  | (mType, b, err) :: reads' =>
      match err with
      | Some err =>
          Some (Returns (None, Some (errors_Wrap err "read failed")))
      | None =>
          if decide (mType ≠ TextMessage)
          then ReadNextInterestingMessages reads'
          else
            match isInterestingChannel b with
            | Panics msg => Some (Panics msg)
            | Returns false => ReadNextInterestingMessages reads'
            | Returns true =>
                match parseMessage b with
                | (_, Some err) =>
                    Some (Returns
                            (None,
                             Some (errors_Wrap err "unable to parse message")))
                | (parsed, None) => Some (Returns (parsed, None))
                end
            end
      end
  end.

(** A frame the loop passes over: read without an error, and not a text
    frame or not an interesting one. *)
Definition passed_over (f : read_result) : Prop :=
  f.2 = None
  ∧ (f.1.1 ≠ TextMessage ∨ isInterestingChannel f.1.2 = Returns false).

(** A text frame read without an error, of ten bytes or more, that decodes
    to the container [c]. *)
Definition text_frame_of (c : RawMessageContainer) (f : read_result) : Prop :=
  f.2 = None ∧ f.1.1 = TextMessage ∧ 10 ≤ String.length f.1.2
  ∧ json_Unmarshal_RawMessageContainer f.1.2 = inl c.

End Reading.

(** A decoder that finds the same interesting container in every frame. *)
Definition sample_decode (b : string) : RawMessageContainer + error :=
  inl {| Channel := "d-5A2F,0|b,2,2,1"; Messages := [] |}.

(** ** [Read] on a session *)

(** The case that the [select] of [Read] takes: [<-c.closed], an error
    that a goroutine is sending on [c.err], the zero value that the closed
    [c.err] gives, or [default]. *)
Inductive read_case : Type :=
  | CaseClosed
  | CaseErr (from_pinger : bool)
  | CaseErrClosed
  | CaseDefault.

(** [errors.Wrap] of an error that may be nil: nil stays nil. *)
Definition errors_Wrap_nilable (err : option error) (msg : string)
  : option error :=
  (fun e => errors_Wrap e msg) <$> err.

(** Some goroutine is blocked sending on [c.err]. *)
Definition sending (s : Session) : bool :=
  match pinger s, keeper s with
  | Sending _, _ | _, Sending _ => true
  | _, _ => false
  end.

(** [Read], [frame] being what [c.ws.ReadMessage()] returns if it is
    called; [None] when the case cannot be taken in the state.  [default]
    is taken only when no channel is ready. *)
Definition Read (k : read_case) (frame : read_result) (s : Session)
  : option (read_result * Session) :=
  if panicked s then None
  else
    match k with
    | CaseClosed =>
        match closed s with
        | ChanClosed =>
            Some ((0%Z, EmptyString, Some (errors_New "ws closed")), s)
        | ChanOpen => None
        end
    | CaseErr from_pinger =>
        match (if from_pinger then pinger s else keeper s), err s with
        | Sending e, ChanOpen =>
            match step (EvReceiveErr from_pinger) s with
            | Some s' =>
                Some ((0%Z, EmptyString,
                       Some (errors_Wrap e "connection broken")), s')
            | None => None
            end
        | _, _ => None
        end
    | CaseErrClosed =>
        match err s with
        | ChanClosed =>
            Some ((0%Z, EmptyString,
                   errors_Wrap_nilable None "connection broken"), s)
        | ChanOpen => None
        end
    | CaseDefault =>
        match closed s, err s, sending s with
        | ChanOpen, ChanOpen, false => Some (frame, s)
        | _, _, _ => None
        end
    end.

(** What happens next in a session that is read: an event of the session,
    or a call of [Read]. *)
Inductive action : Type :=
  | Event (e : event)
  | CallRead (k : read_case) (frame : read_result).

(** A run of a session that is read: what the calls of [Read] returned,
    in order, and the session. *)
Fixpoint reading (acts : list action) (s : Session)
  : option (list read_result * Session) :=
  match acts with
  | [] => Some ([], s)
  | Event e :: acts' =>
      match step e s with
      | Some s' => reading acts' s'
      | None => None
      end
  | CallRead k frame :: acts' =>
      match Read k frame s with
      | Some (r, s') =>
          match reading acts' s' with
          | Some (rs, s'') => Some (r :: rs, s'')
          | None => None
          end
      | None => None
      end
  end.

(** The number [I] of a keep-alive frame. *)
Definition call_I (c : call) : option Z :=
  match c with
  | CallKeepAlive i => Some i
  | _ => None
  end.

(** The goroutine of the two that is asked for. *)
Definition goroutine_of (from_pinger : bool) (s : Session) : goroutine :=
  if from_pinger then pinger s else keeper s.

(** The errors that the background goroutines send on [c.err]. *)
Definition background_error (e : error) : Prop :=
  ∃ cause, e = errors_Wrap cause "unable to ping signalr"
           ∨ e = errors_Wrap cause "unable to ping WSS".

(** Every error that a goroutine is blocked sending is one of theirs. *)
Definition sends_background (s : Session) : Prop :=
  ∀ b e, goroutine_of b s = Sending e → background_error e.

(** The socket is released only when both goroutines have returned. *)
Definition released_late (s : Session) : Prop :=
  ws_open s = false → pinger s = Exited ∧ keeper s = Exited.

(** The keep-alive goroutine has written some number of frames, numbered
    from 1 as the code computes the numbers, and [currentNonce] is the
    number of the next frame, or still that of the last one while the
    goroutine is blocked sending the error of its write. *)
Definition counts_frames (s : Session) : Prop :=
  ∃ n, omap call_I (calls s)
       = (fun k => wrap64 (1 + Z.of_nat k)) <$> seq 0 n
       ∧ currentNonce s
         = match keeper s with
           | Sending _ => wrap64 (Z.of_nat n)
           | _ => wrap64 (1 + Z.of_nat n)
           end.

(** Three calls of [Read] on a closed session, the [select] of the last of
    which takes [c.closed]. *)
Definition reads_after_close : list action :=
  [CallRead CaseErrClosed (1%Z, "unread", None);
   CallRead CaseErrClosed (1%Z, "unread", None);
   CallRead CaseClosed (1%Z, "unread", None)].

(** A session whose ping fails and that is closed before the error is
    read: the call of [close] closes [c.closed], the keep-alive goroutine
    returns, and the call waits. *)
Definition failing_ping : list event :=
  [EvPingTick (Some (errors_New "did not receive a pong response"))].

Definition closing_unread : list event :=
  [EvCloseCall; EvCloseStep; EvCloseStep; EvKeepAliveStop].

(** ** The address of the socket *)

(** The variable [wsUrl] of [connect]:
    ["wss:" + strings.Split(hubBaseURL, ":")[1]]. *)
Definition wsUrl (hubBaseURL : string) : outcome string :=
  part ← index (strings_Split hubBaseURL ":"%char) 1;
  Returns ("wss:" +:+ part).

(** ** The API client *)

(** The part of an [APIClient] that its websocket methods use: the debug
    flag of its [lowLevelClient] and the pointer [ws], [None] for nil.  A
    pointer to a [WebsocketClient] is its address. *)
Record APIClient : Type := {
  debug : bool;
  ws : option nat
}.

(** What the websocket methods do to the world: a call of
    [newWebsocketClient], with what it returned, the assignment
    [ws.debug = c.c.debug], and a call of [close] that returned. *)
Inductive effect : Type :=
  | EffNewWebsocketClient (res : nat + error)
  | EffSetDebug (w : nat) (d : bool)
  | EffClose (w : nat).

(** [NewAPIClient], [login] being the error of [postLogin]. *)
Definition NewAPIClient (login : option error) (debug : bool)
  : option APIClient * option error :=
  match login with
  | Some err => (None, Some (errors_Wrap err "unable to login"))
  | None => (Some {| debug := debug; ws := None |}, None)
  end.

(** [connectWebsocket], [res] being what [newWebsocketClient] returns if it
    is called. *)
Definition connectWebsocket (res : nat + error) (c : APIClient)
  : list effect * (option nat * option error) * APIClient :=
  match ws c with
  | Some w => ([], (Some w, None), c)
  | None =>
      match res with
      | inr err =>
          ([EffNewWebsocketClient res],
           (None, Some (errors_Wrap err "unable to connect websocket")), c)
      | inl w =>
          ([EffNewWebsocketClient res; EffSetDebug w (debug c)],
           (Some w, None), {| debug := debug c; ws := Some w |})
      end
  end.

Definition closeWebsocket (c : APIClient)
  : list effect * option error * APIClient :=
  match ws c with
  | None => ([], Some (errors_New "websocket not connected"), c)
  | Some w => ([EffClose w], None, {| debug := debug c; ws := None |})
  end.

(** The three exported methods hold [wsLock] around the calls. *)
Definition ConnectWebsocket := connectWebsocket.

Definition CloseWebsocket := closeWebsocket.

Definition ReconnectWebsocket (res : nat + error) (c : APIClient)
  : list effect * (option nat * option error) * APIClient :=
  let '(eff1, _, c1) := closeWebsocket c in
  let '(eff2, r, c2) := connectWebsocket res c1 in
  (eff1 ++ eff2, r, c2).

(** A user of the client calls its websocket methods one after the
    other. *)
Inductive api_call : Type :=
  | DoConnect (res : nat + error)
  | DoClose
  | DoReconnect (res : nat + error).

Definition api_step (a : api_call) (c : APIClient)
  : list effect * APIClient :=
  match a with
  | DoConnect res => let r := ConnectWebsocket res c in (r.1.1, r.2)
  | DoClose => let r := CloseWebsocket c in (r.1.1, r.2)
  | DoReconnect res => let r := ReconnectWebsocket res c in (r.1.1, r.2)
  end.

Fixpoint api_run (l : list api_call) (c : APIClient)
  : list effect * APIClient :=
  match l with
  | [] => ([], c)
  | a :: l' =>
      let (eff, c1) := api_step a c in
      let (eff', c2) := api_run l' c1 in
      (eff ++ eff', c2)
  end.

(** The sessions that a trace opened, and those it closed, in order. *)
Definition opened (t : list effect) : list nat :=
  omap (fun e => match e with
                 | EffNewWebsocketClient (inl w) => Some w
                 | _ => None
                 end) t.

Definition closed_sessions (t : list effect) : list nat :=
  omap (fun e => match e with EffClose w => Some w | _ => None end) t.

(** A user who connects twice, fails to reconnect, closes, and reconnects. *)
Definition sample_api_calls : list api_call :=
  [DoConnect (inl 7); DoConnect (inl 8);
   DoReconnect (inr (errors_New "unable to auth2")); DoClose;
   DoReconnect (inl 9)].

(** ** Tactics *)

(** Settles a decidable proposition about given data by evaluating its
    decision procedure. *)
Ltac by_evaluation := apply (bool_decide_unpack _); vm_compute; exact I.

(** Settles a goal [session_invariant s'] for a state [s'] whose fields
    are known: the phase is tried out. *)
Ltac settle_phase :=
  split; [done|];
  first
    [ left; unfold phase_open, running; simpl;
      repeat split; try done; try lia; auto; fail
    | right; left; unfold phase_closing, running; simpl;
      repeat split; try done; try lia; auto 6; fail
    | right; right; unfold phase_closed, running; simpl;
      repeat split; try done; try lia; auto; fail ].

(** * What the code does *)

(** ** The live state reconciler *)

Section Update_loops.

Variables (c : StatusChangeContainer) (now : Time).

(** The inner loop runs off the end when no device left carries the id. *)
Lemma Update_devices_not_found i m h s n j :
  (∀ k, j ≤ k < j + n →
     DeviceEntry.ID (h (cell (MachineEntry.Devices m) k)) ≠ DeviceID c) →
  Update_devices c now i m j n h s
  = (Some (errors_New "device not found"), h, s).
Proof.
  revert j. induction n as [|n IH]; intros j Hno; simpl; [done|].
  destruct (decide _) as [Heq|_].
  - exfalso. apply (Hno j); [lia|done].
  - apply IH. intros k Hk. apply Hno. lia.
Qed.

(** The inner loop stops at the first device that carries the id. *)
Lemma Update_devices_found i m h s n j j' :
  j ≤ j' < j + n →
  (∀ k, j ≤ k < j' →
     DeviceEntry.ID (h (cell (MachineEntry.Devices m) k)) ≠ DeviceID c) →
  DeviceEntry.ID (h (cell (MachineEntry.Devices m) j')) = DeviceID c →
  Update_devices c now i m j n h s
  = (None,
     store_write h (cell (MachineEntry.Devices m) j')
       (set_Status (h (cell (MachineEntry.Devices m) j')) (Status c)),
     {| machines := <[i := m]> (machines s);
        devicesLastUpdated :=
          <[DeviceID c := now]> (devicesLastUpdated s) |}).
Proof.
  revert j. induction n as [|n IH]; intros j Hj Hno Hid; simpl; [lia|].
  destruct (decide _) as [Heq|Hne].
  - destruct (decide (j = j')) as [->|Hjj]; [done|].
    exfalso. apply (Hno j); [lia|done].
  - destruct (decide (j = j')) as [->|Hjj]; [done|].
    apply IH; [lia| |done]. intros k Hk. apply Hno. lia.
Qed.

(** The outer loop runs off the end when no machine carries the SID. *)
Lemma Update_machines_not_found ms i h s :
  (∀ m, m ∈ ms → MachineEntry.SID m ≠ MachineSID c) →
  Update_machines c now ms i h s
  = (Some (errors_New "machine not found"), h, s).
Proof.
  revert i. induction ms as [|m ms IH]; intros i Hno; simpl; [done|].
  destruct (decide _) as [Heq|_].
  - exfalso. apply (Hno m); [left|done].
  - apply IH. intros m' Hm'. apply Hno. by right.
Qed.

(** The outer loop hands over to the inner loop at the first machine that
    carries the SID, whatever comes after it. *)
Lemma Update_machines_first l1 m l2 i h s :
  (∀ x, x ∈ l1 → MachineEntry.SID x ≠ MachineSID c) →
  MachineEntry.SID m = MachineSID c →
  Update_machines c now (l1 ++ m :: l2) i h s
  = Update_devices c now (i + length l1) m 0
      (len (MachineEntry.Devices m)) h s.
Proof.
  revert i. induction l1 as [|x l1 IH]; intros i Hno Hm; simpl.
  - rewrite decide_True by done. by rewrite Nat.add_0_r.
  - rewrite decide_False by (apply Hno; left).
    rewrite IH; [|intros y Hy; apply Hno; by right|done].
    f_equal; lia.
Qed.

End Update_loops.

(** What the inner loop does, in either case. *)
Lemma Update_devices_effect c now i m h s n j :
  Update_devices c now i m j n h s
  = (Some (errors_New "device not found"), h, s)
  ∨ (∃ j', j ≤ j' < j + n ∧
       DeviceEntry.ID (h (cell (MachineEntry.Devices m) j')) = DeviceID c ∧
       Update_devices c now i m j n h s
       = (None,
          store_write h (cell (MachineEntry.Devices m) j')
            (set_Status (h (cell (MachineEntry.Devices m) j')) (Status c)),
          {| machines := <[i := m]> (machines s);
             devicesLastUpdated :=
               <[DeviceID c := now]> (devicesLastUpdated s) |})).
Proof.
  revert j. induction n as [|n IH]; intros j; simpl; [by left|].
  destruct (decide _) as [Heq|Hne].
  - right. exists j. split; [lia|done].
  - destruct (IH (S j)) as [Herr|(j' & Hj' & Hid & Hok)]; [by left|].
    right. exists j'. split; [lia|done].
Qed.

(** What the outer loop does from index [i] on, [ms] being the machines
    from there on. *)
Lemma Update_machines_effect c now h s ms i :
  drop i (machines s) = ms →
  (∃ e, Update_machines c now ms i h s = (Some e, h, s))
  ∨ (∃ m j,
       m ∈ machines s ∧ j < len (MachineEntry.Devices m) ∧
       DeviceEntry.ID (h (cell (MachineEntry.Devices m) j)) = DeviceID c ∧
       Update_machines c now ms i h s
       = (None,
          store_write h (cell (MachineEntry.Devices m) j)
            (set_Status (h (cell (MachineEntry.Devices m) j)) (Status c)),
          {| machines := machines s;
             devicesLastUpdated :=
               <[DeviceID c := now]> (devicesLastUpdated s) |})).
Proof.
  revert i. induction ms as [|m ms IH]; intros i Hdrop; simpl.
  - left. by eexists.
  - assert (machines s !! i = Some m) as Hi.
    { pose proof (lookup_drop (machines s) i 0) as Hl.
      rewrite Nat.add_0_r, Hdrop in Hl. by rewrite <- Hl. }
    destruct (decide _) as [Heq|Hne].
    + destruct (Update_devices_effect c now i m h s
                  (len (MachineEntry.Devices m)) 0)
        as [Herr|(j & Hj & Hid & Hok)].
      * left. by eexists.
      * right. exists m, j. split; [by eapply list_elem_of_lookup_2|].
        split; [lia|]. split; [done|].
        rewrite Hok. by rewrite list_insert_id.
    + apply IH. replace (S i) with (i + 1) by lia.
      by rewrite <- drop_drop, Hdrop.
Qed.

(** A failed [Update] changes nothing; a successful one writes one device
    cell, keeping its id, and one timestamp, and leaves the machine list
    as it is. *)
Lemma Update_effect c now h s :
  (∃ e, Update c now h s = (Some e, h, s))
  ∨ (∃ m j,
       m ∈ machines s ∧ j < len (MachineEntry.Devices m) ∧
       DeviceEntry.ID (h (cell (MachineEntry.Devices m) j)) = DeviceID c ∧
       Update c now h s
       = (None,
          store_write h (cell (MachineEntry.Devices m) j)
            (set_Status (h (cell (MachineEntry.Devices m) j)) (Status c)),
          {| machines := machines s;
             devicesLastUpdated :=
               <[DeviceID c := now]> (devicesLastUpdated s) |})).
Proof. by apply Update_machines_effect. Qed.

(** *** Reading a machine's devices through the store *)


Lemma devices_lookup h m j :
  devices h m !! j
  = if decide (j < len (MachineEntry.Devices m))
    then Some (h (cell (MachineEntry.Devices m) j)) else None.
Proof.
  unfold devices. rewrite list_lookup_fmap.
  destruct (decide _) as [Hlt|Hge].
  - by rewrite lookup_seq_lt.
  - by rewrite lookup_seq_ge by lia.
Qed.

Lemma devices_lookup_Some h m j d :
  devices h m !! j = Some d ↔
  j < len (MachineEntry.Devices m) ∧ d = h (cell (MachineEntry.Devices m) j).
Proof.
  rewrite devices_lookup. destruct (decide _) as [Hlt|Hge]; split.
  - by intros [= <-].
  - by intros [_ ->].
  - done.
  - by intros [? _].
Qed.

Lemma has_device_cell h m id :
  has_device h m id ↔
  ∃ j, j < len (MachineEntry.Devices m)
       ∧ DeviceEntry.ID (h (cell (MachineEntry.Devices m) j)) = id.
Proof.
  unfold has_device. rewrite Exists_exists. split.
  - intros (d & Hd & Hid). apply list_elem_of_lookup in Hd as [j Hj].
    apply devices_lookup_Some in Hj as [Hlt ->]. eauto.
  - intros (j & Hlt & Hid). eexists. split; [|exact Hid].
    eapply list_elem_of_lookup_2. apply devices_lookup_Some. eauto.
Qed.



(** A write that keeps the id of the cell keeps which machine has which
    device id. *)
Lemma has_device_store_write h m a st id :
  has_device (store_write h a (set_Status (h a) st)) m id ↔ has_device h m id.
Proof.
  rewrite !has_device_cell. unfold store_write.
  split; intros (j & Hlt & Hid); exists j; (split; [done|]).
  - revert Hid. case_decide as Heq; [|done]. simpl. by rewrite Heq.
  - case_decide as Heq; [|done]. simpl. by rewrite <- Heq.
Qed.

(** The first element of a list that satisfies a decidable predicate. *)
Lemma Exists_first_split {A} (P : A → Prop) `{!∀ x, Decision (P x)} l :
  Exists P l →
  ∃ l1 x l2, l = l1 ++ x :: l2 ∧ Forall (fun y => ¬ P y) l1 ∧ P x.
Proof.
  induction l as [|y l IH]; intros Hex; [by apply Exists_nil in Hex|].
  destruct (decide (P y)) as [Hy|Hy].
  - exists [], y, l. by repeat split.
  - apply Exists_cons in Hex as [?|Hex]; [done|].
    destruct (IH Hex) as (l1 & x & l2 & -> & Hl1 & Hx).
    exists (y :: l1), x, l2. repeat split; [|done]. by constructor.
Qed.

(** *** The two errors of [Update] *)

(** C1. For every state of the snapshot, [Update] with a machine id that no
    machine of the list carries returns the error "machine not found";
    with a machine id that a machine carries and a device id that no device
    of that machine carries it returns "device not found"; either way the
    store of devices, the machine list and the timestamp map it returns are
    the ones it was given.  The machine a machine id matches is the first of
    the list that carries it (second part); in particular the error is
    "device not found" when some machine carries the id and none that
    carries it has the device (third part). *)
Theorem Update_not_found_changes_nothing c now h s :
  (Forall (fun m => MachineEntry.SID m ≠ MachineSID c) (machines s) →
     Update c now h s = (Some (errors_New "machine not found"), h, s))
  ∧ (∀ l1 m l2,
       machines s = l1 ++ m :: l2 →
       Forall (fun x => MachineEntry.SID x ≠ MachineSID c) l1 →
       MachineEntry.SID m = MachineSID c →
       ¬ has_device h m (DeviceID c) →
       Update c now h s = (Some (errors_New "device not found"), h, s))
  ∧ (Exists (fun m => MachineEntry.SID m = MachineSID c) (machines s) →
     Forall (fun m => MachineEntry.SID m = MachineSID c →
                      ¬ has_device h m (DeviceID c)) (machines s) →
     Update c now h s = (Some (errors_New "device not found"), h, s)).
Proof.
  assert (∀ l1 m l2,
       machines s = l1 ++ m :: l2 →
       Forall (fun x => MachineEntry.SID x ≠ MachineSID c) l1 →
       MachineEntry.SID m = MachineSID c →
       ¬ has_device h m (DeviceID c) →
       Update c now h s = (Some (errors_New "device not found"), h, s))
    as Hfirst.
  { intros l1 m l2 Hms Hl1 Hm Hno. unfold Update. rewrite Hms.
    rewrite Update_machines_first; [|by apply Forall_forall|done].
    apply Update_devices_not_found. intros k Hk Hid.
    apply Hno, has_device_cell. exists k. split; [lia|done]. }
  split; [|split; [exact Hfirst|]].
  - intros Hno. apply Update_machines_not_found. by apply Forall_forall.
  - intros Hex Hall.
    destruct (Exists_first_split _ _ Hex) as (l1 & m & l2 & Hms & Hl1 & Hm).
    apply (Hfirst l1 m l2 Hms Hl1 Hm).
    rewrite Forall_forall in Hall. apply Hall; [|done].
    rewrite Hms. apply elem_of_app. right. left.
Qed.

(** C10. [Update] commits to the first machine of the list that carries
    the machine id: when that machine has no device with the device id,
    the error is "device not found" and nothing changes, also when a later
    machine [m'] carries the same id and has the device.  The machines
    after the first match ([l2]) are never looked at. *)
Theorem Update_commits_to_first_SID_match c now h s l1 m l2 m' :
  machines s = l1 ++ m :: l2 →
  Forall (fun x => MachineEntry.SID x ≠ MachineSID c) l1 →
  MachineEntry.SID m = MachineSID c →
  ¬ has_device h m (DeviceID c) →
  m' ∈ l2 →
  MachineEntry.SID m' = MachineSID c →
  has_device h m' (DeviceID c) →
  Update c now h s = (Some (errors_New "device not found"), h, s).
Proof.
  intros Hms Hl1 Hm Hno _ _ _. unfold Update. rewrite Hms.
  rewrite Update_machines_first; [|by apply Forall_forall|done].
  apply Update_devices_not_found. intros k Hk Hid.
  apply Hno, has_device_cell. exists k. split; [lia|done].
Qed.

(** *** The effect of a successful [Update] *)




(** An instance of C1: no machine "rig-9" in the snapshot, and no device
    "gpu2" among the two devices of "rig-1". *)
Lemma Update_not_found_changes_nothing_witness :
  let s := SetSystemInfo [rig "rig-1" {| ptr := 0; len := 2 |}] NewLiveState in
  Update {| MachineSID := "rig-9"; DeviceID := "gpu0"; Status := mining |}
    1000%Z sample_store s
  = (Some (errors_New "machine not found"), sample_store, s)
  ∧ Update {| MachineSID := "rig-1"; DeviceID := "gpu2"; Status := mining |}
      1000%Z sample_store s
    = (Some (errors_New "device not found"), sample_store, s).
Proof.
  intros s. split.
  - apply (proj1 (Update_not_found_changes_nothing _ _ _ _)).
    by_evaluation.
  - apply (proj1 (proj2 (Update_not_found_changes_nothing _ _ _ _))
             [] (rig "rig-1" {| ptr := 0; len := 2 |}) []).
    + reflexivity.
    + constructor.
    + reflexivity.
    + by_evaluation.
Defined.

(** An instance of C10: two machines "rig-1", the device "gpu1" in the
    second only. *)
Lemma Update_commits_to_first_SID_match_witness :
  let m := rig "rig-1" {| ptr := 0; len := 1 |} in
  let m' := rig "rig-1" {| ptr := 1; len := 1 |} in
  let s := SetSystemInfo [m; m'] NewLiveState in
  has_device sample_store m' "gpu1"
  ∧ Update {| MachineSID := "rig-1"; DeviceID := "gpu1"; Status := mining |}
      1000%Z sample_store s
    = (Some (errors_New "device not found"), sample_store, s).
Proof.
  intros m m' s.
  assert (has_device sample_store m' "gpu1") as Hhas.
  { by_evaluation. }
  split; [exact Hhas|].
  apply (Update_commits_to_first_SID_match _ _ _ _ [] m [m'] m').
  - reflexivity.
  - constructor.
  - reflexivity.
  - by_evaluation.
  - constructor.
  - reflexivity.
  - exact Hhas.
Defined.

(** *** Timestamps and the devices they name *)

(** [AddMachine] of a machine whose SID is new appends it. *)
Lemma AddMachine_range_new entry ms i s :
  Forall (fun m => MachineEntry.SID m ≠ MachineEntry.SID entry) ms →
  AddMachine_range entry ms i s
  = {| machines := machines s ++ [entry];
       devicesLastUpdated := devicesLastUpdated s |}.
Proof.
  revert i. induction ms as [|m ms IH]; intros i Hnew; simpl; [done|].
  rewrite decide_False by (by apply Forall_inv in Hnew).
  apply IH. by apply Forall_inv_tail in Hnew.
Qed.

(** [AddMachine] of a machine whose SID is taken overwrites the first
    machine that carries it. *)
Lemma AddMachine_range_taken entry l1 m l2 i s :
  Forall (fun x => MachineEntry.SID x ≠ MachineEntry.SID entry) l1 →
  MachineEntry.SID m = MachineEntry.SID entry →
  AddMachine_range entry (l1 ++ m :: l2) i s
  = {| machines := <[i + length l1 := entry]> (machines s);
       devicesLastUpdated := devicesLastUpdated s |}.
Proof.
  revert i. induction l1 as [|x l1 IH]; intros i Hl1 Hm; simpl.
  - rewrite decide_True by done. by rewrite Nat.add_0_r.
  - rewrite decide_False by (by apply Forall_inv in Hl1).
    rewrite IH; [|by apply Forall_inv_tail in Hl1|done].
    do 2 f_equal. lia.
Qed.

(** What [AddMachine] does, by the first machine that carries the SID. *)
Lemma AddMachine_list_find entry s :
  AddMachine entry s
  = match list_find (fun m => MachineEntry.SID m = MachineEntry.SID entry)
            (machines s) with
    | Some (i, _) =>
        {| machines := <[i := entry]> (machines s);
           devicesLastUpdated := devicesLastUpdated s |}
    | None =>
        {| machines := machines s ++ [entry];
           devicesLastUpdated := devicesLastUpdated s |}
    end.
Proof.
  unfold AddMachine.
  destruct (list_find _ _) as [[i m]|] eqn:Hfind.
  - apply list_find_Some in Hfind as (Hi & Hm & Hbefore).
    rewrite <- (take_drop_middle _ _ _ Hi) at 1.
    rewrite AddMachine_range_taken; [|apply Forall_forall|done].
    + rewrite length_take_le; [done|].
      apply lookup_lt_Some in Hi. lia.
    + intros x Hx. apply list_elem_of_lookup in Hx as [k Hk].
      pose proof (lookup_lt_Some _ _ _ Hk) as Hlt.
      rewrite length_take in Hlt.
      rewrite lookup_take_lt in Hk by lia. apply (Hbefore k); [done|lia].
  - apply AddMachine_range_new.
    by apply list_find_None in Hfind.
Qed.

(** Each operation keeps the invariant, [AddMachine] when it keeps the
    devices of the machine it overwrites. *)
Lemma apply_op_keeps_timestamps o hs :
  match o with
  | OpAddMachine entry => keeps_devices entry hs
  | _ => True
  end →
  timestamps_in_some_machine hs →
  timestamps_in_some_machine (apply_op o hs).
Proof.
  destruct hs as [h s]. destruct o as [entries|entry|c now]; simpl.
  - intros _ _ id [t Ht]. cbn in Ht. by rewrite lookup_empty in Ht.
  - unfold keeps_devices, timestamps_in_some_machine. simpl.
    rewrite AddMachine_list_find. intros Hkeep Hinv.
    destruct (list_find _ _) as [[i m]|] eqn:Hfind; simpl; intros id Hid.
    + apply list_find_Some in Hfind as (Hi & _ & _).
      apply Hinv, Exists_exists in Hid as (m0 & Hm0 & Hhas).
      apply list_elem_of_lookup in Hm0 as [k Hk].
      apply Exists_exists.
      destruct (decide (k = i)) as [->|Hne].
      * exists entry. split.
        { apply (list_elem_of_lookup_2 _ i).
          apply list_lookup_insert_eq. by eapply lookup_lt_Some. }
        assert (m0 = m) as -> by congruence.
        apply Exists_exists in Hhas as (d & Hd & <-).
        rewrite Forall_forall in Hkeep. by apply Hkeep.
      * exists m0. split; [|done].
        apply (list_elem_of_lookup_2 _ k).
        by rewrite list_lookup_insert_ne.
    + apply Exists_app. left. by apply (Hinv id).
  - intros _ Hinv. unfold timestamps_in_some_machine. simpl.
    destruct (Update_effect c now h s)
      as [[e ->]|(m & j & Hm & Hj & Hidj & ->)]; simpl; intros id Hid.
    + by apply (Hinv id).
    + apply Exists_exists.
      destruct (decide (id = DeviceID c)) as [->|Hne].
      * exists m. split; [done|]. apply has_device_store_write.
        apply has_device_cell. eauto.
      * rewrite lookup_insert_ne in Hid by done.
        apply Hinv, Exists_exists in Hid as (m0 & Hm0 & Hhas).
        exists m0. split; [done|]. by apply has_device_store_write.
Qed.

Lemma run_keeps_timestamps ops hs :
  adds_keep_devices ops hs →
  timestamps_in_some_machine hs →
  timestamps_in_some_machine (run ops hs).
Proof.
  revert hs. induction ops as [|o ops IH]; intros hs; simpl; [done|].
  intros [Ho Hops] Hinv. apply IH; [done|].
  by apply apply_op_keeps_timestamps.
Qed.

(** C2, as the specification states it, fails on two counts.  After
    [AddMachine] overwrote the machine "rig-1" by an entry without devices,
    the timestamp of "gpu0" names a device of no machine.  And without any
    [AddMachine], after the device "gpu0" of "rig-1" was updated, its
    timestamp names a device of two machines, "rig-2" having a device
    "gpu0" of its own. *)
Lemma timestamps_name_no_or_two_machines :
  (let c := {| MachineSID := "rig-1"; DeviceID := "gpu0"; Status := mining |} in
   let hs := run [OpSetSystemInfo [rig "rig-1" {| ptr := 0; len := 3 |}];
                  OpUpdate c 1000%Z;
                  OpAddMachine (rig "rig-1" {| ptr := 0; len := 0 |})]
               (sample_store, NewLiveState) in
   devicesLastUpdated hs.2 !! "gpu0" = Some 1000%Z
   ∧ machines hs.2 = [rig "rig-1" {| ptr := 0; len := 0 |}]
   ∧ ¬ timestamps_in_some_machine hs
   ∧ ¬ timestamps_in_exactly_one_machine hs)
  ∧ (let c := {| MachineSID := "rig-1"; DeviceID := "gpu0"; Status := mining |} in
     let m1 := rig "rig-1" {| ptr := 0; len := 3 |} in
     let m2 := rig "rig-2" {| ptr := 3; len := 2 |} in
     let hs := run [OpSetSystemInfo [m1; m2]; OpUpdate c 1000%Z]
                 (sample_store, NewLiveState) in
     devicesLastUpdated hs.2 !! "gpu0" = Some 1000%Z
     ∧ machines hs.2 = [m1; m2]
     ∧ has_device hs.1 m1 "gpu0" ∧ has_device hs.1 m2 "gpu0"
     ∧ ¬ timestamps_in_exactly_one_machine hs).
Proof.
  split.
  - intros c hs.
    assert (devicesLastUpdated hs.2 !! "gpu0" = Some 1000%Z) as Hkey
      by reflexivity.
    assert (¬ timestamps_in_some_machine hs) as Hnone.
    { intros Hinv. specialize (Hinv "gpu0" (mk_is_Some _ _ Hkey)).
      revert Hinv. by_evaluation. }
    split; [exact Hkey|]. split; [reflexivity|]. split; [exact Hnone|].
    intros Hinv. apply Hnone. intros id Hid.
    destruct (Hinv id Hid) as (i & (m & Hm & Hhas) & _).
    apply Exists_exists. exists m. split; [|done].
    by eapply list_elem_of_lookup_2.
  - intros c m1 m2 hs.
    assert (has_device hs.1 m1 "gpu0") as H1.
    { by_evaluation. }
    assert (has_device hs.1 m2 "gpu0") as H2.
    { by_evaluation. }
    split; [reflexivity|]. split; [reflexivity|].
    split; [exact H1|]. split; [exact H2|].
    intros Hinv.
    destruct (Hinv "gpu0") as (i & _ & Huniq); [by eexists|].
    assert (0 = i) as <- by (apply Huniq; by exists m1).
    assert (1 = 0) as Habs by (apply Huniq; by exists m2).
    discriminate.
Qed.

(** C2, amended.  Starting from a fresh [LiveState], after any finite
    sequence of [SetSystemInfo], [Update] and [AddMachine] operations in
    which each [AddMachine] adds a machine whose SID is new or overwrites a
    machine by an entry that has a device for each device id of the machine
    it overwrites, every device id that is a key of the timestamp map is
    the id of a device of at least one machine of the current machine
    list. *)
Theorem timestamps_name_devices_of_the_snapshot ops h :
  adds_keep_devices ops (h, NewLiveState) →
  timestamps_in_some_machine (run ops (h, NewLiveState)).
Proof.
  intros Hops. apply run_keeps_timestamps; [done|].
  intros id [t Ht]. cbn in Ht. by rewrite lookup_empty in Ht.
Qed.

(** An instance of it: a snapshot, an update, a new machine, an update of
    it, and the first machine overwritten by an entry with the same
    devices. *)
Lemma timestamps_name_devices_of_the_snapshot_witness :
  timestamps_in_some_machine
    (run [OpSetSystemInfo [rig "rig-1" {| ptr := 0; len := 2 |}];
          OpUpdate {| MachineSID := "rig-1"; DeviceID := "gpu1";
                      Status := mining |} 1000%Z;
          OpAddMachine (rig "rig-2" {| ptr := 2; len := 1 |});
          OpUpdate {| MachineSID := "rig-2"; DeviceID := "gpu2";
                      Status := mining |} 2000%Z;
          OpAddMachine (rig "rig-1" {| ptr := 3; len := 2 |})]
       (sample_store, NewLiveState)).
Proof.
  apply timestamps_name_devices_of_the_snapshot.
  simpl. repeat split; by_evaluation.
Defined.

(** ** The envelope filter *)

(** [strings_Split] never returns the empty list. *)
Lemma strings_Split_not_nil s sep : strings_Split s sep ≠ [].
Proof.
  destruct s as [|c s]; simpl; [done|].
  destruct (decide _); [done|]. by destruct (strings_Split s sep).
Qed.

(** Joining the pieces gives the string back. *)
Lemma strings_Join_Split s sep :
  strings_Join (strings_Split s sep) sep = s.
Proof.
  induction s as [|c s IH]; simpl; [done|].
  destruct (decide (c = sep)) as [->|Hne].
  - pose proof (strings_Split_not_nil s sep) as Hnil.
    destruct (strings_Split s sep) as [|p ps]; [done|].
    simpl in *. by rewrite IH.
  - pose proof (strings_Split_not_nil s sep) as Hnil.
    destruct (strings_Split s sep) as [|p ps]; [done|].
    destruct ps as [|p' ps]; simpl in *; by rewrite <- IH.
Qed.

(** Pieces without the separator are the pieces [strings_Split] finds. *)
Lemma strings_Split_Join parts sep :
  parts ≠ [] → Forall (free_of sep) parts →
  strings_Split (strings_Join parts sep) sep = parts.
Proof.
  induction parts as [|p ps IH]; [done|]. intros _ Hfree.
  apply Forall_cons in Hfree as [Hp Hps].
  destruct ps as [|p' ps].
  - simpl. clear IH Hps. induction p as [|c p IHp]; simpl; [done|].
    destruct Hp as [Hc Hp]. rewrite decide_False by done.
    by rewrite (IHp Hp).
  - specialize (IH ltac:(done) Hps).
    change (strings_Join (p :: p' :: ps) sep)
      with (p +:+ String sep (strings_Join (p' :: ps) sep)).
    revert IH. generalize (strings_Join (p' :: ps) sep). intros rest IH.
    induction p as [|c p IHp]; simpl.
    + rewrite decide_True by done. by rewrite IH.
    + destruct Hp as [Hc Hp]. rewrite decide_False by done.
      by rewrite (IHp Hp).
Qed.

(** [strconv_Atoi] on a string of one byte: the value of the digit, or a
    syntax error. *)
Lemma strconv_Atoi_one_byte c :
  strconv_Atoi (String c EmptyString)
  = match digit_value c with
    | Some d => inl d
    | None => inr {| Func := "Atoi"; Num := String c EmptyString;
                     Err := ErrSyntax |}
    end.
Proof. by destruct c as [[] [] [] [] [] [] [] []]. Qed.

Lemma digit_value_range c d : digit_value c = Some d → (0 ≤ d ≤ 9)%Z.
Proof.
  unfold digit_value. destruct (decide _); [|done]. intros [= <-]. lia.
Qed.

(** [isInteresting] on a channel of five pieces the third and fourth of
    which are not empty. *)
Lemma isInteresting_five_parts c p1 p2 c3 r3 c4 r4 p5 :
  strings_Split (Channel c) ","%char
  = [p1; p2; String c3 r3; String c4 r4; p5] →
  isInteresting c
  = Returns (bool_decide (digit_value c3 = Some 2%Z)
             && bool_decide (digit_value c4 = Some 2%Z)).
Proof.
  intros Hsplit. unfold isInteresting. rewrite Hsplit. simpl.
  rewrite !strconv_Atoi_one_byte.
  destruct (digit_value c3) as [d3|]; simpl; [|done].
  destruct (digit_value c4) as [d4|]; simpl.
  - f_equal. f_equal; apply bool_decide_ext; split; congruence.
  - rewrite andb_false_r. done.
Qed.

(** C4. A channel that does not split into exactly five pieces at its
    commas is not interesting.  A channel of five pieces is interesting
    when the third and the fourth piece both begin with the digit 2, and it
    is not when they begin with two decimal digits other than 2 and 2. *)
Theorem isInteresting_by_the_digits_of_parts_3_and_4 c :
  (length (strings_Split (Channel c) ","%char) ≠ 5 →
     isInteresting c = Returns false)
  ∧ (∀ p1 p2 r3 r4 p5,
       strings_Split (Channel c) ","%char
       = [p1; p2; String "2"%char r3; String "2"%char r4; p5] →
       isInteresting c = Returns true)
  ∧ (∀ p1 p2 c3 r3 c4 r4 p5 d3 d4,
       strings_Split (Channel c) ","%char
       = [p1; p2; String c3 r3; String c4 r4; p5] →
       digit_value c3 = Some d3 → digit_value c4 = Some d4 →
       ¬ (d3 = 2%Z ∧ d4 = 2%Z) →
       isInteresting c = Returns false).
Proof.
  split; [|split].
  - intros Hlen. unfold isInteresting. by rewrite decide_True.
  - intros p1 p2 r3 r4 p5 Hsplit.
    by rewrite (isInteresting_five_parts _ _ _ _ _ _ _ _ Hsplit).
  - intros p1 p2 c3 r3 c4 r4 p5 d3 d4 Hsplit H3 H4 Hne.
    rewrite (isInteresting_five_parts _ _ _ _ _ _ _ _ Hsplit), H3, H4.
    f_equal. apply andb_false_iff.
    destruct (decide (d3 = 2%Z)) as [->|H3'].
    + right. apply bool_decide_eq_false. intros [= ->]. by apply Hne.
    + left. apply bool_decide_eq_false. by intros [= ->].
Qed.

(** Instances of C4: four pieces; the digits 2 and 2; the digits 2 and 7. *)
Lemma isInteresting_by_the_digits_of_parts_3_and_4_witness :
  isInteresting {| Channel := "d-5A2F,0|b,21,2"; Messages := [] |}
  = Returns false
  ∧ isInteresting {| Channel := "d-5A2F,0|b,21,2x,1"; Messages := [] |}
    = Returns true
  ∧ isInteresting {| Channel := "d-5A2F,0|b,21,7,1"; Messages := [] |}
    = Returns false.
Proof.
  split; [|split].
  - apply (proj1 (isInteresting_by_the_digits_of_parts_3_and_4 _)).
    vm_compute. discriminate.
  - apply (proj1 (proj2 (isInteresting_by_the_digits_of_parts_3_and_4 _))
             "d-5A2F" "0|b" "1" "x" "1").
    reflexivity.
  - apply (proj2 (proj2 (isInteresting_by_the_digits_of_parts_3_and_4 _))
             "d-5A2F" "0|b" "2"%char "1" "7"%char "" "1" 2%Z 7%Z).
    + reflexivity.
    + reflexivity.
    + reflexivity.
    + lia.
Defined.

(** [isInteresting] panics on every channel of five pieces whose third
    piece is empty, and on every one whose fourth piece is empty after a
    third piece that begins with a decimal digit. *)
Lemma isInteresting_panics c p1 p2 p3 p4 p5 :
  strings_Split (Channel c) ","%char = [p1; p2; p3; p4; p5] →
  p3 = EmptyString
  ∨ (p4 = EmptyString
     ∧ ∃ c3 r3, p3 = String c3 r3 ∧ is_Some (digit_value c3)) →
  isInteresting c = Panics "slice bounds out of range [:1] with length 0".
Proof.
  intros Hsplit Hempty. unfold isInteresting. rewrite Hsplit. simpl.
  destruct Hempty as [->|(-> & c3 & r3 & -> & d3 & Hd3)]; simpl; [done|].
  by rewrite strconv_Atoi_one_byte, Hd3.
Qed.

(** C3 fails on the code: a channel of five pieces whose third piece is
    empty makes [isInteresting] panic, and so does an empty fourth piece
    after a third piece that begins with a digit.  With an empty fourth
    piece after a third piece that begins with any other byte the answer is
    [false], as C3 has it. *)
Theorem isInteresting_panics_on_an_empty_part :
  isInteresting {| Channel := "d-5A2F,0|b,,2,1"; Messages := [] |}
  = Panics "slice bounds out of range [:1] with length 0"
  ∧ isInteresting {| Channel := "d-5A2F,0|b,2,,1"; Messages := [] |}
    = Panics "slice bounds out of range [:1] with length 0"
  ∧ isInteresting {| Channel := "d-5A2F,0|b,x,,1"; Messages := [] |}
    = Returns false.
Proof. repeat split. Qed.

(** Where [isInteresting] is total: on every channel that does not have
    five pieces, and on every channel of five pieces the third and fourth
    of which are not empty.  A piece that begins with a byte that is no
    digit makes it answer [false]. *)
Lemma isInteresting_returns c :
  (length (strings_Split (Channel c) ","%char) ≠ 5
   ∨ ∃ p1 p2 c3 r3 c4 r4 p5,
       strings_Split (Channel c) ","%char
       = [p1; p2; String c3 r3; String c4 r4; p5]) →
  ∃ b, isInteresting c = Returns b.
Proof.
  intros [Hlen|(p1 & p2 & c3 & r3 & c4 & r4 & p5 & Hsplit)].
  - exists false. unfold isInteresting. by rewrite decide_True.
  - eexists. by eapply isInteresting_five_parts.
Qed.

(** ** The message decoders *)

Section Decoders_facts.

Variable json_Unmarshal_string : string -> string + error.
Variable json_Unmarshal_DeviceStatus : string -> DeviceStatus.t + error.
Variable json_Unmarshal_MachineEntry :
  string -> Store -> (MachineEntry.t + error) * Store.

(** [checkMethodAndArgCount] accepts a message exactly when the method is
    the one asked for and the arguments are as many as asked for. *)
Lemma checkMethodAndArgCount_nil msg method argCount :
  checkMethodAndArgCount msg method argCount = None ↔
  Method msg = method ∧ length (Arguments msg) = argCount.
Proof.
  unfold checkMethodAndArgCount.
  destruct (decide (Method msg ≠ method)) as [Hm|Hm].
  - split; [done|]. by intros [? _].
  - apply dec_stable in Hm.
    destruct (decide (length (Arguments msg) ≠ argCount)) as [Hn|Hn].
    + split; [done|]. by intros [_ ?].
    + apply dec_stable in Hn. done.
Qed.

(** C7. A message whose method is "StatusChanged" and which does not carry
    exactly 3 arguments is refused by [ParseStatusChangedMessage]: it
    returns the nil pointer and an error that wraps, under "invalid
    message", the arity error naming the 3 arguments expected and the
    number of arguments found; no record is built, and it does not panic. *)
Theorem ParseStatusChangedMessage_wrong_arity msg :
  Method msg = MethodStatusChanged →
  length (Arguments msg) ≠ 3 →
  let e := errors_Wrap
             (fmt_Errorf ("expected 3 arguments, got "
                          +:+ pretty (length (Arguments msg))))
             "invalid message" in
  ParseStatusChangedMessage json_Unmarshal_string
    json_Unmarshal_DeviceStatus msg
  = Returns (None, Some e)
  ∧ Error e = "invalid message: expected 3 arguments, got "
              +:+ pretty (length (Arguments msg)).
Proof.
  intros Hm Hn e. split; [|reflexivity].
  unfold ParseStatusChangedMessage, checkMethodAndArgCount.
  rewrite decide_False by (by intros ?).
  rewrite decide_True by done. reflexivity.
Qed.

(** C8. A message whose method is "SetSystemInfo" and which carries three
    arguments, the bytes of the third of which decode as a machine [m],
    makes [ParseSystemInfoMessage] return the list of that one machine and
    no error.  The bytes are those of the argument itself, and [null] for
    an argument that is the nil slice.  The first two arguments are never
    read: with any other two in their place the result is the same. *)
Theorem ParseSystemInfoMessage_reads_the_third_argument
    host a1 a2 a3 h m h' :
  json_Unmarshal_MachineEntry
    (match a3 with Some bb => bb | None => "null" end) h = (inl m, h') →
  ParseSystemInfoMessage json_Unmarshal_MachineEntry
    {| Host := host; Method := MethodSetSystemInfo;
       Arguments := [a1; a2; a3] |} h
  = (Returns (Some [m], None), h')
  ∧ ∀ host' a1' a2',
      ParseSystemInfoMessage json_Unmarshal_MachineEntry
        {| Host := host'; Method := MethodSetSystemInfo;
           Arguments := [a1'; a2'; a3] |} h
      = (Returns (Some [m], None), h').
Proof.
  intros Hdec.
  assert (∀ host' a1' a2',
      ParseSystemInfoMessage json_Unmarshal_MachineEntry
        {| Host := host'; Method := MethodSetSystemInfo;
           Arguments := [a1'; a2'; a3] |} h
      = (Returns (Some [m], None), h')) as Hany.
  { intros host' a1' a2'. unfold ParseSystemInfoMessage. simpl.
    destruct a3 as [bb|]; simpl in *; by rewrite Hdec. }
  split; [apply Hany|exact Hany].
Qed.

(** The first two arguments do not matter either when the third does not
    decode. *)
Lemma ParseSystemInfoMessage_ignores_two_arguments
    host host' a1 a2 a1' a2' a3 h :
  ParseSystemInfoMessage json_Unmarshal_MachineEntry
    {| Host := host; Method := MethodSetSystemInfo;
       Arguments := [a1; a2; a3] |} h
  = ParseSystemInfoMessage json_Unmarshal_MachineEntry
      {| Host := host'; Method := MethodSetSystemInfo;
         Arguments := [a1'; a2'; a3] |} h.
Proof. reflexivity. Qed.

End Decoders_facts.

(** An instance of C7: a "StatusChanged" message with two arguments. *)
Lemma ParseStatusChangedMessage_wrong_arity_witness :
  let e := errors_Wrap (fmt_Errorf "expected 3 arguments, got 2")
             "invalid message" in
  ParseStatusChangedMessage (Unmarshal_null "")
    (Unmarshal_null zero_DeviceStatus)
    {| Host := "reportinghub"; Method := "StatusChanged";
       Arguments := [Some "null"; Some "null"] |}
  = Returns (None, Some e)
  ∧ Error e = "invalid message: expected 3 arguments, got 2".
Proof.
  apply (ParseStatusChangedMessage_wrong_arity (Unmarshal_null "")
           (Unmarshal_null zero_DeviceStatus)
           {| Host := "reportinghub"; Method := "StatusChanged";
              Arguments := [Some "null"; Some "null"] |}).
  - reflexivity.
  - simpl. lia.
Defined.

(** An instance of C8: the third argument is the JSON object
    [sample_machine_json], which decodes as a machine with the SID "rig-1";
    the first is a number and the second the nil slice, neither of which
    decodes as that machine. *)
Lemma ParseSystemInfoMessage_reads_the_third_argument_witness :
  ParseSystemInfoMessage Unmarshal_sample_MachineEntry
    {| Host := "reportinghub"; Method := "SetSystemInfo";
       Arguments := [Some "17"; None; Some sample_machine_json] |}
    sample_store
  = (Returns (Some [sample_machine], None), sample_store)
  ∧ Unmarshal_sample_MachineEntry "17" sample_store
    = (inr (json_error "invalid character"), sample_store)
  ∧ Unmarshal_sample_MachineEntry "null" sample_store
    = (inl zero_MachineEntry, sample_store)
  ∧ sample_machine ≠ zero_MachineEntry.
Proof.
  split; [|split; [reflexivity|split; [reflexivity|discriminate]]].
  apply (proj1 (ParseSystemInfoMessage_reads_the_third_argument
                  Unmarshal_sample_MachineEntry "reportinghub"
                  (Some "17") None (Some sample_machine_json) sample_store
                  sample_machine sample_store eq_refl)).
Defined.

(** ** The session: nonces *)

Lemma wrap64_id z : is_int64 z → wrap64 z = z.
Proof.
  unfold is_int64, wrap64. intros Hz.
  rewrite Z.mod_small by lia. lia.
Qed.

Lemma wrap64_succ z : wrap64 (wrap64 z + 1) = wrap64 (z + 1).
Proof.
  unfold wrap64.
  replace (((z + 2 ^ 63) `mod` 2 ^ 64 - 2 ^ 63 + 1 + 2 ^ 63))%Z
    with (((z + 2 ^ 63) `mod` 2 ^ 64 + 1))%Z by lia.
  replace (z + 1 + 2 ^ 63)%Z with (z + 2 ^ 63 + 1)%Z by lia.
  by rewrite Zplus_mod_idemp_l.
Qed.

(** Milliseconds of an [int64] of nanoseconds. *)
Lemma millis_small now :
  is_int64 now → (- 2 ^ 44 < now `quot` 1000000 < 2 ^ 44)%Z.
Proof.
  unfold is_int64. intros Hnow. Z.quot_rem_to_equations. lia.
Qed.

Lemma nonce_calls_app log1 log2 :
  nonce_calls (log1 ++ log2) = nonce_calls log1 ++ nonce_calls log2.
Proof. apply filter_app. Qed.

Lemma nonce_calls_after_S t tok host ctok n :
  nonce_calls_after t tok host ctok (S n)
  = nonce_calls_after t tok host ctok n
    ++ [CallPing (wrap64 (t + 2 + Z.of_nat n)) tok host].
Proof.
  unfold nonce_calls_after. by rewrite seq_S, fmap_app.
Qed.

(** Without overflow the wrapped nonces are the counting ones. *)
Lemma nonce_calls_after_counting t tok host ctok n :
  (- 2 ^ 44 < t < 2 ^ 44)%Z → (Z.of_nat n ≤ 2 ^ 62)%Z →
  nonce_calls_after t tok host ctok n = nonce_calls_counting t tok host ctok n.
Proof.
  intros Ht Hn. unfold nonce_calls_after, nonce_calls_counting.
  rewrite wrap64_id by (unfold is_int64; lia). do 2 f_equal.
  apply list_fmap_ext. intros i k Hk.
  apply lookup_seq in Hk as [-> Hk].
  rewrite wrap64_id by (unfold is_int64; lia). done.
Qed.

(** A step of a session keeps the count of pings going. *)
Lemma step_counts_pings t tok host ctok e s s' :
  step e s = Some s' →
  counts_pings t tok host ctok s → counts_pings t tok host ctok s'.
Proof.
  intros Hstep (n & Hcalls & Hnonce & Htok & Hhost).
  unfold step in Hstep. destruct (panicked s); [done|].
  destruct e as [reply| |reply| |[]|[]| |].
  - destruct (pinger s); [|done..]. injection Hstep as <-.
    exists (S n). simpl. rewrite nonce_calls_app, Hcalls, Hnonce, Htok, Hhost.
    rewrite nonce_calls_after_S, wrap64_succ.
    replace (t + 1 + Z.of_nat n + 1)%Z with (t + 2 + Z.of_nat n)%Z by lia.
    replace (t + 1 + Z.of_nat (S n))%Z with (t + 2 + Z.of_nat n)%Z by lia.
    done.
  - destruct (pinger s), (closed s); try done; injection Hstep as <-;
      by exists n.
  - destruct (keeper s); [|done..]. injection Hstep as <-.
    exists n. destruct reply; simpl; rewrite nonce_calls_app, Hcalls;
      simpl; by rewrite app_nil_r.
  - destruct (keeper s), (closed s); try done; injection Hstep as <-;
      by exists n.
  - destruct (pinger s), (err s); try done; injection Hstep as <-;
      by exists n.
  - destruct (keeper s), (err s); try done; injection Hstep as <-;
      by exists n.
  - destruct (pinger s), (err s); try done; injection Hstep as <-;
      by exists n.
  - destruct (keeper s), (err s); try done; injection Hstep as <-;
      by exists n.
  - destruct (caller s); [|done]. injection Hstep as <-. by exists n.
  - destruct (caller s) as [|pc]; [done|].
    destruct pc; simpl in Hstep.
    + destruct (closed s); injection Hstep as <-; by exists n.
    + destruct (closed s); injection Hstep as <-; by exists n.
    + destruct (wg s); [|done]. injection Hstep as <-. by exists n.
    + injection Hstep as <-. by exists n.
    + destruct (err s); injection Hstep as <-; by exists n.
Qed.

Lemma steps_counts_pings t tok host ctok evs s s' :
  steps evs s = Some s' →
  counts_pings t tok host ctok s → counts_pings t tok host ctok s'.
Proof.
  revert s. induction evs as [|e evs IH]; intros s; simpl.
  - by intros [= <-].
  - destruct (step e s) as [s1|] eqn:Hstep; [|done].
    intros Hsteps Hs. apply (IH s1 Hsteps).
    by eapply step_counts_pings.
Qed.

Lemma omap_call_nonce_pings (f : nat → Z) tok host (l : list nat) :
  omap call_nonce ((fun k => CallPing (f k) tok host) <$> l) = f <$> l.
Proof. induction l as [|k l IH]; csimpl; [done|]. by f_equal. Qed.

(** The nonces of the counting requests. *)
Lemma nonces_counting t tok host ctok n :
  nonces (nonce_calls_counting t tok host ctok n)
  = t :: (t + 1)%Z :: ((fun k => (t + 2 + Z.of_nat k)%Z) <$> seq 0 n).
Proof.
  unfold nonces, nonce_calls_counting. simpl. do 2 f_equal.
  apply omap_call_nonce_pings.
Qed.

Lemma nonces_counting_lookup t tok host ctok n i x :
  nonces (nonce_calls_counting t tok host ctok n) !! i = Some x →
  x = (t + Z.of_nat i)%Z.
Proof.
  rewrite nonces_counting. destruct i as [|[|i]]; simpl.
  - intros [= <-]. lia.
  - intros [= <-]. lia.
  - rewrite list_lookup_fmap. intros Hx.
    apply fmap_Some in Hx as (k & Hk & ->).
    apply lookup_seq in Hk as [-> _]. lia.
Qed.

Lemma length_nonce_calls_after t tok host ctok n :
  length (nonces (nonce_calls_after t tok host ctok n)) = 2 + n.
Proof.
  unfold nonces, nonce_calls_after. simpl. do 2 f_equal.
  by rewrite omap_call_nonce_pings, length_fmap, length_seq.
Qed.

Lemma nonces_nonce_calls log : nonces (nonce_calls log) = nonces log.
Proof.
  unfold nonces, nonce_calls.
  induction log as [|c log IH]; [done|].
  rewrite filter_cons. destruct (decide _) as [Hc|Hc]; csimpl.
  - by rewrite IH.
  - rewrite IH. destruct (call_nonce c) eqn:Heq; [|done].
    exfalso. apply Hc. by eexists.
Qed.

(** What [newWebsocketClient] sent when it returns a session, and the
    state it leaves. *)
Lemma newWebsocketClient_session now r log s0 :
  newWebsocketClient now r = (log, inl s0) →
  calls s0 = log
  ∧ session_invariant s0
  ∧ ∃ tok host ctok, counts_pings (now `quot` 1000000) tok host ctok s0.
Proof.
  unfold newWebsocketClient.
  destruct (auth2_reply r) as [a|]; [|done].
  destruct (negotiate_reply r) as [ng|]; [|done].
  destruct (connect_reply r); [done|].
  destruct (start_reply r); [done|].
  intros [= <- <-]. split; [done|]. split.
  - split; [done|]. left. unfold phase_open. simpl.
    repeat split; try done. by left.
  - exists (Auth2Response.Token a), (Auth2Response.Host a),
      (ConnectionToken ng).
    exists 0. simpl. repeat split. f_equal. lia.
Qed.

(** The requests with a nonce that a failed handshake sent. *)
Lemma newWebsocketClient_error now r log e i x :
  is_int64 now →
  newWebsocketClient now r = (log, inr e) →
  nonces log !! i = Some x → x = (now `quot` 1000000 + Z.of_nat i)%Z.
Proof.
  intros Hnow. pose proof (millis_small now Hnow) as Ht.
  unfold newWebsocketClient.
  destruct (auth2_reply r) as [a|];
    [|intros [= <- _]; by destruct i as [|i]].
  destruct (negotiate_reply r) as [ng|];
    [|intros [= <- _]; destruct i as [|i]; simpl; [intros [= <-]; lia|done]].
  destruct (connect_reply r);
    [intros [= <- _]; destruct i as [|i]; simpl; [intros [= <-]; lia|done]|].
  destruct (start_reply r); [|done].
  intros [= <- _]. rewrite wrap64_id by (unfold is_int64; lia).
  destruct i as [|[|i]]; simpl; [intros [= <-]; lia..|done].
Qed.

(** The requests with a nonce of a session, as long as the counter has not
    wrapped. *)
Lemma session_nonce_calls now r log s0 evs s :
  is_int64 now →
  newWebsocketClient now r = (log, inl s0) →
  steps evs s0 = Some s →
  (Z.of_nat (length (nonces (calls s))) ≤ 2 ^ 62)%Z →
  ∃ tok host ctok n,
    nonce_calls (calls s)
    = nonce_calls_counting (now `quot` 1000000) tok host ctok n.
Proof.
  intros Hnow Hnew Hsteps Hlen. pose proof (millis_small now Hnow) as Ht.
  destruct (newWebsocketClient_session _ _ _ _ Hnew)
    as (_ & _ & tok & host & ctok & Hcount).
  destruct (steps_counts_pings _ _ _ _ _ _ _ Hsteps Hcount)
    as (n & Hcalls & _).
  exists tok, host, ctok, n. rewrite Hcalls.
  apply nonce_calls_after_counting; [done|].
  rewrite <- nonces_nonce_calls, Hcalls, length_nonce_calls_after in Hlen.
  lia.
Qed.

(** C6. Within one session the requests that carry a nonce are, in the
    order they are sent, negotiate, start and the pings, and with [t] the
    millisecond timestamp taken when the session starts their nonces are
    [t], [t + 1], [t + 2], ...: the [i]-th of them carries [t + i], so the
    nonces increase strictly and none is used twice.  This holds for what
    a failed handshake sent too.  The nonce is an [int64]; the statement is
    for the sessions that send at most 2 ^ 62 such requests, far below the
    number at which the counter would wrap. *)
Theorem nonces_count_up_from_the_timestamp now r log res :
  is_int64 now →
  newWebsocketClient now r = (log, res) →
  let t := (now `quot` 1000000)%Z in
  (∀ i x, nonces log !! i = Some x → x = (t + Z.of_nat i)%Z)
  ∧ ∀ s0 evs s,
      res = inl s0 →
      steps evs s0 = Some s →
      (Z.of_nat (length (nonces (calls s))) ≤ 2 ^ 62)%Z →
      (∃ tok host ctok n,
         nonce_calls (calls s) = nonce_calls_counting t tok host ctok n)
      ∧ (∀ i x, nonces (calls s) !! i = Some x → x = (t + Z.of_nat i)%Z)
      ∧ (∀ i j x y, i < j → nonces (calls s) !! i = Some x →
                    nonces (calls s) !! j = Some y → (x < y)%Z).
Proof.
  intros Hnow Hnew t.
  assert (∀ s0 evs s,
      res = inl s0 →
      steps evs s0 = Some s →
      (Z.of_nat (length (nonces (calls s))) ≤ 2 ^ 62)%Z →
      (∃ tok host ctok n,
         nonce_calls (calls s) = nonce_calls_counting t tok host ctok n)
      ∧ (∀ i x, nonces (calls s) !! i = Some x → x = (t + Z.of_nat i)%Z))
    as Hsession.
  { intros s0 evs s -> Hsteps Hlen.
    destruct (session_nonce_calls _ _ _ _ _ _ Hnow Hnew Hsteps Hlen)
      as (tok & host & ctok & n & Hcalls).
    split; [by exists tok, host, ctok, n|].
    intros i x. rewrite <- nonces_nonce_calls, Hcalls.
    apply nonces_counting_lookup. }
  split.
  - destruct res as [s0|e].
    + destruct (newWebsocketClient_session _ _ _ _ Hnew) as (Hlog & _).
      destruct (Hsession s0 [] s0 eq_refl eq_refl) as [_ Hnth].
      * rewrite Hlog. clear -Hnew. unfold newWebsocketClient in Hnew.
        destruct (auth2_reply r) as [a|]; [|done].
        destruct (negotiate_reply r) as [ng|]; [|done].
        destruct (connect_reply r); [done|].
        destruct (start_reply r); [done|].
        injection Hnew as <- _. simpl. lia.
      * by rewrite Hlog in Hnth.
    + intros i x. by apply (newWebsocketClient_error now r log e i x).
  - intros s0 evs s Hres Hsteps Hlen.
    destruct (Hsession s0 evs s Hres Hsteps Hlen) as [Hshape Hnth].
    split; [done|]. split; [done|].
    intros i j x y Hij Hx Hy.
    rewrite (Hnth i x Hx), (Hnth j y Hy). lia.
Qed.

(** An instance of C6: the handshake, then three pings. *)
Lemma nonces_count_up_from_the_timestamp_witness :
  ∃ log s0 s,
    newWebsocketClient sample_now accepting = (log, inl s0)
    ∧ steps pinging s0 = Some s
    ∧ nonces (calls s)
      = [1700000000123; 1700000000124; 1700000000125; 1700000000126;
         1700000000127]%Z
    ∧ (∀ i x, nonces (calls s) !! i = Some x
              → x = (1700000000123 + Z.of_nat i)%Z).
Proof.
  evar (log : list call). evar (s0 : Session). evar (s : Session).
  assert (newWebsocketClient sample_now accepting = (log, inl s0)) as Hnew
    by (subst log s0; vm_compute; reflexivity).
  assert (steps pinging s0 = Some s) as Hsteps
    by (subst s0 s; vm_compute; reflexivity).
  assert (Z.of_nat (length (nonces (calls s))) ≤ 2 ^ 62)%Z as Hfew
    by (subst s; vm_compute; discriminate).
  assert (is_int64 sample_now) as Hnow
    by (unfold is_int64, sample_now; lia).
  exists log, s0, s. split; [exact Hnew|]. split; [exact Hsteps|].
  split; [subst s; vm_compute; reflexivity|].
  exact (proj1 (proj2 (proj2 (nonces_count_up_from_the_timestamp
           sample_now accepting log (inl s0) Hnow Hnew) s0 pinging s
           eq_refl Hsteps Hfew))).
Defined.

(** ** The session: close *)

(** Every step keeps the invariant: a session is open, closing or closed,
    and it has not panicked. *)
Lemma step_session_invariant e s s' :
  step e s = Some s' → session_invariant s → session_invariant s'.
Proof.
  destruct s as [n tok host cn cl er ws w pg kp ca cr pa cs].
  unfold step, session_invariant. simpl.
  intros Hstep [-> Hphase].
  destruct Hphase as [Ho|[Hc|Hd]].
  - unfold phase_open in Ho. simpl in Ho.
    destruct Ho as (-> & -> & -> & Hpg & Hkp & -> & -> & Hca).
    destruct e as [reply| |reply| |[]|[]| |]; simpl in Hstep.
    + destruct pg; try done; injection Hstep as <-;
        destruct reply; settle_phase.
    + by destruct pg.
    + destruct kp; try done; injection Hstep as <-;
        destruct reply; settle_phase.
    + by destruct kp.
    + destruct pg; try done; injection Hstep as <-; settle_phase.
    + destruct kp; try done; injection Hstep as <-; settle_phase.
    + by destruct pg.
    + by destruct kp.
    + destruct ca; try done; injection Hstep as <-; settle_phase.
    + destruct Hca as [->|[->| ->]]; try done; simpl in Hstep;
        injection Hstep as <-; [settle_phase|].
      split; [done|]. right. left. unfold phase_closing, running. simpl.
      destruct pg, kp; try done; repeat split; auto.
  - unfold phase_closing, running in Hc. simpl in Hc.
    destruct Hc as (-> & -> & Hw & -> & Hca).
    destruct e as [reply| |reply| |[]|[]| |]; simpl in Hstep.
    + destruct pg; try done; injection Hstep as <-;
        destruct reply; split; try done; right; left;
        unfold phase_closing, running; simpl;
        (repeat split; try done);
        destruct Hca as [->|[[-> ->]|(-> & -> & ->)]]; try done; auto;
        destruct kp; done.
    + destruct pg; try done; injection Hstep as <-.
      split; [done|]. right. left. unfold phase_closing, running. simpl.
      destruct Hca as [->|[[-> ->]|(-> & -> & ->)]]; try done.
      subst w. destruct kp; repeat split; auto; simpl; lia.
    + destruct kp; try done; injection Hstep as <-;
        destruct reply; split; try done; right; left;
        unfold phase_closing, running; simpl;
        (repeat split; try done);
        destruct Hca as [->|[[-> ->]|(-> & -> & ->)]]; try done; auto;
        destruct pg; done.
    + destruct kp; try done; injection Hstep as <-.
      split; [done|]. right. left. unfold phase_closing, running. simpl.
      destruct Hca as [->|[[-> ->]|(-> & -> & ->)]]; try done;
        [|destruct pg; done..].
      subst w. destruct pg; repeat split; auto; simpl; lia.
    + destruct pg; try done; injection Hstep as <-.
      split; [done|]. right. left. unfold phase_closing, running. simpl.
      destruct Hca as [->|[[-> ->]|(-> & -> & ->)]]; try done;
        repeat split; auto; destruct kp; done.
    + destruct kp; try done; injection Hstep as <-.
      split; [done|]. right. left. unfold phase_closing, running. simpl.
      destruct Hca as [->|[[-> ->]|(-> & -> & ->)]]; try done;
        repeat split; auto; destruct pg; done.
    + by destruct pg.
    + by destruct kp.
    + by destruct Hca as [->|[[-> ->]|(-> & -> & ->)]].
    + destruct Hca as [->|[[-> ->]|(-> & -> & ->)]]; simpl in Hstep.
      * destruct w; [|done]. injection Hstep as <-.
        split; [done|]. right. left. unfold phase_closing, running. simpl.
        repeat split; auto.
      * injection Hstep as <-.
        split; [done|]. right. left. unfold phase_closing, running. simpl.
        repeat split; auto.
      * injection Hstep as <-.
        split; [done|]. right. right. unfold phase_closed. simpl.
        destruct pg, kp; try done. repeat split; auto.
  - unfold phase_closed in Hd. simpl in Hd.
    destruct Hd as (-> & -> & -> & -> & -> & -> & Hcr & Hca).
    destruct e as [reply| |reply| |[]|[]| |]; simpl in Hstep; try done.
    + destruct ca; try done; injection Hstep as <-; settle_phase.
    + destruct Hca as [->| ->]; try done; simpl in Hstep.
      injection Hstep as <-. split; [done|]. right. right.
      unfold phase_closed. simpl. repeat split; auto.
Qed.

Lemma steps_session_invariant evs s s' :
  steps evs s = Some s' → session_invariant s → session_invariant s'.
Proof.
  revert s. induction evs as [|e evs IH]; intros s; simpl.
  - by intros [= <-].
  - destruct (step e s) as [s1|] eqn:Hstep; [|done].
    intros Hsteps Hs. apply (IH s1 Hsteps).
    by eapply step_session_invariant.
Qed.

(** Once a call of [close] has returned, nothing moves but the caller: a
    step changes where the caller stands and how many calls returned, and
    nothing else. *)
Lemma step_after_close e s s' :
  session_invariant s → (1 ≤ closes_returned s)%nat →
  step e s = Some s' →
  shared s' = shared s ∧ closes_returned s ≤ closes_returned s'.
Proof.
  destruct s as [n tok host cn cl er ws w pg kp ca cr pa cs].
  unfold step, session_invariant, shared. simpl.
  intros [-> Hphase] Hcr Hstep.
  destruct Hphase as [Ho|[Hc|Hd]].
  - unfold phase_open in Ho. simpl in Ho. lia.
  - unfold phase_closing in Hc. simpl in Hc. lia.
  - unfold phase_closed in Hd. simpl in Hd.
    destruct Hd as (-> & -> & -> & -> & -> & -> & _ & Hca).
    destruct e as [reply| |reply| |[]|[]| |]; simpl in Hstep; try done.
    + destruct ca; try done. injection Hstep as <-. simpl. split; [done|lia].
    + destruct Hca as [->| ->]; try done. simpl in Hstep.
      injection Hstep as <-. simpl. split; [done|lia].
Qed.

Lemma steps_after_close evs s s' :
  session_invariant s → (1 ≤ closes_returned s)%nat →
  steps evs s = Some s' →
  shared s' = shared s ∧ closes_returned s ≤ closes_returned s'.
Proof.
  revert s. induction evs as [|e evs IH]; intros s Hinv Hcr; simpl.
  - intros [= <-]. split; [done|lia].
  - destruct (step e s) as [s1|] eqn:Hstep; [|done]. intros Hsteps.
    destruct (step_after_close _ _ _ Hinv Hcr Hstep) as [Hsh Hle].
    destruct (IH s1) as [Hsh' Hle']; [|lia|done|].
    + by eapply step_session_invariant.
    + split; [congruence|lia].
Qed.

(** C9. In every session, once a first call of [close] has returned
    ([s1], with the caller back from the call), both background goroutines
    have returned, the wait group is at zero, [c.closed] and [c.err] are
    closed and nothing panicked.  A second call of [close] returns from its
    [select] at once ([close_returns s1] is [s1] with one more call
    returned): it closes no channel again and does not panic.  And whatever
    happens from [s1] on, the second call included, leaves all of the
    session as it is but for where the caller stands and the number of
    calls that returned. *)
Theorem second_close_is_a_no_op now r log s0 evs s1 :
  newWebsocketClient now r = (log, inl s0) →
  steps evs s0 = Some s1 →
  (1 ≤ closes_returned s1)%nat →
  caller s1 = Idle →
  (pinger s1 = Exited ∧ keeper s1 = Exited ∧ wg s1 = 0
   ∧ closed s1 = ChanClosed ∧ err s1 = ChanClosed ∧ ws_open s1 = false
   ∧ panicked s1 = false)
  ∧ steps [EvCloseCall; EvCloseStep] s1 = Some (close_returns s1)
  ∧ shared (close_returns s1) = shared s1
  ∧ ∀ evs' s2, steps evs' s1 = Some s2 →
      shared s2 = shared s1
      ∧ pinger s2 = Exited ∧ keeper s2 = Exited ∧ panicked s2 = false.
Proof.
  intros Hnew Hsteps Hcr Hidle.
  destruct (newWebsocketClient_session _ _ _ _ Hnew) as (_ & Hinv0 & _).
  pose proof (steps_session_invariant _ _ _ Hsteps Hinv0) as Hinv1.
  assert (pinger s1 = Exited ∧ keeper s1 = Exited ∧ wg s1 = 0
          ∧ closed s1 = ChanClosed ∧ err s1 = ChanClosed
          ∧ ws_open s1 = false ∧ panicked s1 = false) as Hquiet.
  { destruct Hinv1 as [Hp [Ho|[Hc|Hd]]].
    - unfold phase_open in Ho. lia.
    - unfold phase_closing in Hc. lia.
    - unfold phase_closed in Hd. by destruct_and!. }
  split; [exact Hquiet|].
  destruct Hquiet as (Hpg & Hkp & Hwg & Hcl & Her & Hws & Hpa).
  split; [|split; [done|]].
  - simpl. unfold step. rewrite Hpa, Hidle. simpl.
    by rewrite Hpa, Hcl.
  - intros evs' s2 Hsteps'.
    destruct (steps_after_close _ _ _ Hinv1 Hcr Hsteps') as [Hsh _].
    split; [done|]. unfold shared in Hsh.
    injection Hsh as _ _ _ _ _ _ -> -> -> _. done.
Qed.

(** An instance of C9: a session closed once, then closed again. *)
Lemma second_close_is_a_no_op_witness :
  ∃ log s0 s1,
    newWebsocketClient sample_now accepting = (log, inl s0)
    ∧ steps closing_once s0 = Some s1
    ∧ closes_returned s1 = 1
    ∧ steps [EvCloseCall; EvCloseStep] s1 = Some (close_returns s1)
    ∧ shared (close_returns s1) = shared s1
    ∧ closes_returned (close_returns s1) = 2.
Proof.
  evar (log : list call). evar (s0 : Session). evar (s1 : Session).
  assert (newWebsocketClient sample_now accepting = (log, inl s0)) as Hnew
    by (subst log s0; vm_compute; reflexivity).
  assert (steps closing_once s0 = Some s1) as Hsteps
    by (subst s0 s1; vm_compute; reflexivity).
  assert (closes_returned s1 = 1) as Hone
    by (subst s1; vm_compute; reflexivity).
  assert (caller s1 = Idle) as Hidle
    by (subst s1; vm_compute; reflexivity).
  assert (1 ≤ closes_returned s1) as Hle by (rewrite Hone; lia).
  destruct (second_close_is_a_no_op sample_now accepting log s0
              closing_once s1 Hnew Hsteps Hle Hidle)
    as (_ & Hreturns & Hshared & _).
  exists log, s0, s1. split; [exact Hnew|]. split; [exact Hsteps|].
  split; [exact Hone|]. split; [exact Hreturns|]. split; [exact Hshared|].
  subst s1. vm_compute. reflexivity.
Defined.

(** ** More on the live state reconciler *)

(** What [AddMachine] does to the machine list, by whether a machine
    carries the SID of the entry. *)
Lemma AddMachine_machines entry s :
  (Forall (fun m => MachineEntry.SID m ≠ MachineEntry.SID entry) (machines s)
   ∧ machines (AddMachine entry s) = machines s ++ [entry])
  ∨ (∃ l1 m l2,
       machines s = l1 ++ m :: l2
       ∧ Forall (fun x => MachineEntry.SID x ≠ MachineEntry.SID entry) l1
       ∧ MachineEntry.SID m = MachineEntry.SID entry
       ∧ machines (AddMachine entry s) = l1 ++ entry :: l2).
Proof.
  destruct (decide (Exists (fun m => MachineEntry.SID m = MachineEntry.SID entry)
                      (machines s))) as [Hex|Hnex].
  - right. destruct (Exists_first_split _ _ Hex) as (l1 & m & l2 & Hms & Hl1 & Hm).
    exists l1, m, l2. repeat split; try done.
    unfold AddMachine. rewrite Hms at 1.
    rewrite AddMachine_range_taken by done. simpl. rewrite Hms.
    by rewrite insert_app_r_alt, Nat.sub_diag by lia.
  - left. apply not_Exists_Forall in Hnex; [|intros m; apply _].
    split; [done|]. unfold AddMachine. by rewrite AddMachine_range_new.
Qed.

(** X1. [AddMachine] is an upsert by SID.  When no machine of the list
    carries the SID of the entry, the new list is the old one with the entry
    appended.  Otherwise, with [i] the position of the first machine that
    carries the SID, the new list is the old one with the entry at position
    [i] in place of that machine, of the same length.  Either way every
    other machine stays where it is, the first machine of the new list that
    carries the SID is the entry, at the position named, and the timestamp
    map is untouched. *)
Theorem AddMachine_is_an_upsert entry s :
  devicesLastUpdated (AddMachine entry s) = devicesLastUpdated s
  ∧ match list_find (fun m => MachineEntry.SID m = MachineEntry.SID entry)
            (machines s) with
    | Some (i, _) =>
        machines (AddMachine entry s) = <[i := entry]> (machines s)
        ∧ length (machines (AddMachine entry s)) = length (machines s)
        ∧ list_find (fun m => MachineEntry.SID m = MachineEntry.SID entry)
            (machines (AddMachine entry s)) = Some (i, entry)
        ∧ ∀ k, k ≠ i →
               machines (AddMachine entry s) !! k = machines s !! k
    | None =>
        machines (AddMachine entry s) = machines s ++ [entry]
        ∧ length (machines (AddMachine entry s)) = S (length (machines s))
        ∧ list_find (fun m => MachineEntry.SID m = MachineEntry.SID entry)
            (machines (AddMachine entry s))
          = Some (length (machines s), entry)
        ∧ ∀ k, k ≠ length (machines s) →
               machines (AddMachine entry s) !! k = machines s !! k
    end.
Proof.
  rewrite AddMachine_list_find.
  destruct (list_find _ (machines s)) as [[i m]|] eqn:Hfind; simpl.
  - split; [done|]. split; [done|].
    apply list_find_Some in Hfind as (Hi & Hm & Hbefore).
    pose proof (lookup_lt_Some _ _ _ Hi) as Hlt.
    split; [by rewrite length_insert|]. split.
    + apply list_find_Some. split; [by rewrite list_lookup_insert_eq|].
      split; [done|]. intros j y Hj Hji.
      rewrite list_lookup_insert_ne in Hj by lia. by apply (Hbefore j).
    + intros k Hk. by rewrite list_lookup_insert_ne.
  - split; [done|]. split; [done|].
    apply list_find_None in Hfind.
    split; [rewrite length_app; simpl; lia|]. split.
    + apply list_find_Some. split; [by apply list_lookup_middle|].
      split; [done|]. intros j y Hj Hlt.
      rewrite lookup_app_l in Hj by done.
      rewrite Forall_forall in Hfind. apply (Hfind y).
      by eapply list_elem_of_lookup_2.
    + intros k Hk. destruct (decide (k < length (machines s))) as [Hlt|Hge].
      * by rewrite lookup_app_l.
      * rewrite !lookup_ge_None_2; [done|lia|].
        rewrite length_app. simpl. lia.
Qed.

(** [AddMachine] keeps the SIDs of the list distinct. *)
Lemma AddMachine_NoDup entry s :
  NoDup (SIDs s) → NoDup (SIDs (AddMachine entry s)).
Proof.
  unfold SIDs. intros Hnd.
  destruct (AddMachine_machines entry s)
    as [[Hnew ->]|(l1 & m & l2 & Hms & Hl1 & Hm & ->)].
  - rewrite fmap_app. apply NoDup_app. split; [done|]. split.
    + intros sid Hin Hin'. apply list_elem_of_fmap in Hin as (y & -> & Hy).
      apply list_elem_of_singleton in Hin'.
      rewrite Forall_forall in Hnew. by apply (Hnew y).
    + apply NoDup_singleton.
  - rewrite Hms in Hnd. rewrite fmap_app in *. simpl in *.
    by rewrite <- Hm.
Qed.

(** X2. A state built from a fresh one by [AddMachine] alone never holds
    two machines with the same SID, whatever entries are added and however
    often a SID comes back. *)
Theorem AddMachine_alone_keeps_SIDs_distinct entries :
  NoDup (SIDs (add_all entries)).
Proof.
  unfold add_all.
  assert (∀ s, NoDup (SIDs s) →
            NoDup (SIDs (fold_left (fun s entry => AddMachine entry s)
                           entries s))) as Hgen.
  { induction entries as [|e entries IH]; intros s Hs; simpl; [done|].
    apply IH. by apply AddMachine_NoDup. }
  apply Hgen. apply NoDup_nil_2.
Qed.

(** X3. Adding the same entry twice is adding it once. *)
Theorem AddMachine_twice entry s :
  AddMachine entry (AddMachine entry s) = AddMachine entry s.
Proof.
  assert (∃ l1 l2,
            machines (AddMachine entry s) = l1 ++ entry :: l2
            ∧ Forall (fun x => MachineEntry.SID x ≠ MachineEntry.SID entry) l1)
    as (l1 & l2 & Hms & Hl1).
  { destruct (AddMachine_machines entry s)
      as [[Hnew ->]|(l1 & m & l2 & _ & Hl1 & _ & ->)].
    - by exists (machines s), [].
    - by exists l1, l2. }
  unfold AddMachine at 1. rewrite Hms at 1.
  rewrite AddMachine_range_taken by done. simpl.
  destruct (AddMachine entry s) as [ms ts]. simpl in *. f_equal.
  rewrite Hms. apply list_insert_id. by apply list_lookup_middle.
Qed.

(** The inner loop of [Update], read backwards: when it returns no
    error it stopped at the first device that carries the id. *)
Lemma Update_devices_inv c now i m h s n j h' s' :
  Update_devices c now i m j n h s = (None, h', s') →
  ∃ j', j ≤ j' < j + n
    ∧ (∀ k, j ≤ k < j' →
         DeviceEntry.ID (h (cell (MachineEntry.Devices m) k)) ≠ DeviceID c)
    ∧ DeviceEntry.ID (h (cell (MachineEntry.Devices m) j')) = DeviceID c.
Proof.
  revert j. induction n as [|n IH]; intros j; simpl; [done|].
  destruct (decide _) as [Heq|Hne].
  - intros _. exists j. split; [lia|]. split; [intros k Hk; lia|done].
  - intros Hrec. destruct (IH _ Hrec) as (j' & Hj' & Hno & Hid).
    exists j'. split; [lia|]. split; [|done].
    intros k Hk. destruct (decide (k = j)) as [->|Hkj]; [done|].
    apply Hno. lia.
Qed.

(** [Update], read backwards: what a call that returns no error found
    and did. *)
Lemma Update_success_inv c now h s h' s' :
  Update c now h s = (None, h', s') →
  ∃ l1 m l2 j,
    machines s = l1 ++ m :: l2
    ∧ Forall (fun x => MachineEntry.SID x ≠ MachineSID c) l1
    ∧ MachineEntry.SID m = MachineSID c
    ∧ j < len (MachineEntry.Devices m)
    ∧ (∀ k, k < j →
         DeviceEntry.ID (h (cell (MachineEntry.Devices m) k)) ≠ DeviceID c)
    ∧ DeviceEntry.ID (h (cell (MachineEntry.Devices m) j)) = DeviceID c
    ∧ h' = store_write h (cell (MachineEntry.Devices m) j)
             (set_Status (h (cell (MachineEntry.Devices m) j)) (Status c))
    ∧ s' = {| machines := machines s;
              devicesLastUpdated :=
                <[DeviceID c := now]> (devicesLastUpdated s) |}.
Proof.
  intros Hupd.
  destruct (decide (Exists (fun m => MachineEntry.SID m = MachineSID c)
                      (machines s))) as [Hex|Hnex].
  - destruct (Exists_first_split _ _ Hex) as (l1 & m & l2 & Hms & Hl1 & Hm).
    exists l1, m, l2. unfold Update in Hupd. rewrite Hms in Hupd at 1.
    rewrite Update_machines_first in Hupd; [|by apply Forall_forall|done].
    destruct (Update_devices_inv _ _ _ _ _ _ _ _ _ _ Hupd)
      as (j & Hj & Hno & Hid).
    exists j. rewrite (Update_devices_found c now _ m h s _ 0 j) in Hupd
      by done.
    injection Hupd as <- <-.
    repeat split; try done; try lia.
    + intros k Hk. apply Hno. lia.
    + f_equal. apply list_insert_id. rewrite Hms.
      by apply list_lookup_middle.
  - apply not_Exists_Forall in Hnex; [|intros m; apply _].
    unfold Update in Hupd.
    rewrite Update_machines_not_found in Hupd; [done|].
    by apply Forall_forall.
Qed.

(** What [Update] returns and leaves, on a state of the model, the map of
    which is a map that was made. *)
Lemma Update_outcomes c now h s :
  let r := Update c now h s in
  match r.1.1 with
  | Some e =>
      (e = errors_New "machine not found" ∨ e = errors_New "device not found")
      ∧ r.1.2 = h ∧ r.2 = s
  | None =>
      Exists (fun m => MachineEntry.SID m = MachineSID c
                       ∧ has_device h m (DeviceID c)) (machines s)
      ∧ machines r.2 = machines s
      ∧ devicesLastUpdated r.2
        = <[DeviceID c := now]> (devicesLastUpdated s)
      ∧ ∀ a, DeviceEntry.ID (r.1.2 a) = DeviceEntry.ID (h a)
             ∧ DeviceEntry.Enabled (r.1.2 a) = DeviceEntry.Enabled (h a)
             ∧ DeviceEntry.Name (r.1.2 a) = DeviceEntry.Name (h a)
             ∧ DeviceEntry.Type_ (r.1.2 a) = DeviceEntry.Type_ (h a)
  end.
Proof.
  intros r. subst r.
  destruct (Update c now h s) as [[[e|] h'] s'] eqn:Hupd; simpl.
  - destruct (decide (Exists (fun m => MachineEntry.SID m = MachineSID c)
                        (machines s))) as [Hex|Hnex].
    + destruct (Exists_first_split _ _ Hex)
        as (l1 & m & l2 & Hms & Hl1 & Hm).
      unfold Update in Hupd. rewrite Hms in Hupd at 1.
      rewrite Update_machines_first in Hupd; [|by apply Forall_forall|done].
      destruct (Update_devices_effect c now (0 + length l1) m h s
                  (len (MachineEntry.Devices m)) 0)
        as [Herr|(j & _ & _ & Hok)]; [|congruence].
      rewrite Herr in Hupd. injection Hupd as <- <- <-. auto.
    + apply not_Exists_Forall in Hnex; [|intros m; apply _].
      unfold Update in Hupd.
      rewrite Update_machines_not_found in Hupd by (by apply Forall_forall).
      injection Hupd as <- <- <-. auto.
  - destruct (Update_success_inv _ _ _ _ _ _ Hupd)
      as (l1 & m & l2 & j & Hms & Hl1 & Hm & Hj & _ & Hid & -> & ->).
    simpl. split; [|split; [done|split; [done|]]].
    + rewrite Hms. apply Exists_app. right. left. split; [done|].
      apply has_device_cell. eauto.
    + intros a. unfold store_write. by destruct (decide _) as [->|].
Qed.

(** X4. On a state made by [NewLiveState] and brought where it is by
    [SetSystemInfo], [AddMachine] and [Update], in any number and order,
    [Update] returns one of two errors or none.  With an error it returns
    the store and the state it was given.  Without one, the machine named
    exists and has the device, the machine list is the one given, the
    timestamp map holds [now] for the device id and is otherwise the one
    given, and every device of the store keeps its id, name, type and
    enabled flag.  The statement is not for the zero value of [LiveState],
    the map of which is nil. *)
Theorem Update_result ops h0 c now :
  let hs := run ops (h0, NewLiveState) in
  let r := Update c now hs.1 hs.2 in
  match r.1.1 with
  | Some e =>
      (e = errors_New "machine not found" ∨ e = errors_New "device not found")
      ∧ r.1.2 = hs.1 ∧ r.2 = hs.2
  | None =>
      Exists (fun m => MachineEntry.SID m = MachineSID c
                       ∧ has_device hs.1 m (DeviceID c)) (machines hs.2)
      ∧ machines r.2 = machines hs.2
      ∧ devicesLastUpdated r.2
        = <[DeviceID c := now]> (devicesLastUpdated hs.2)
      ∧ ∀ a, DeviceEntry.ID (r.1.2 a) = DeviceEntry.ID (hs.1 a)
             ∧ DeviceEntry.Enabled (r.1.2 a) = DeviceEntry.Enabled (hs.1 a)
             ∧ DeviceEntry.Name (r.1.2 a) = DeviceEntry.Name (hs.1 a)
             ∧ DeviceEntry.Type_ (r.1.2 a) = DeviceEntry.Type_ (hs.1 a)
  end.
Proof.
  intros hs. apply (Update_outcomes c now hs.1 hs.2).
Qed.

(** X5. The last [Update] of a device wins: after an [Update] that
    returned no error, a second one of the same machine id and device id
    returns no error either, and leaves every device and the state as the
    second one alone would have: the status and the timestamp of the first
    are overwritten. *)
Theorem Update_last_write_wins c1 now1 c2 now2 h s h1 s1 :
  Update c1 now1 h s = (None, h1, s1) →
  MachineSID c2 = MachineSID c1 →
  DeviceID c2 = DeviceID c1 →
  ∃ h2 h2' s2,
    Update c2 now2 h1 s1 = (None, h2, s2)
    ∧ Update c2 now2 h s = (None, h2', s2)
    ∧ ∀ a, h2 a = h2' a.
Proof.
  intros Hupd Hsid Hdid.
  destruct (Update_success_inv _ _ _ _ _ _ Hupd)
    as (l1 & m & l2 & j & Hms & Hl1 & Hm & Hj & Hno & Hid & -> & ->).
  set (a0 := cell (MachineEntry.Devices m) j).
  assert (∀ a, DeviceEntry.ID
                 (store_write h a0 (set_Status (h a0) (Status c1)) a)
               = DeviceEntry.ID (h a)) as Hids.
  { intros a. unfold store_write. by destruct (decide _) as [->|]. }
  eexists _, _, _. split; [|split].
  - unfold Update. simpl. rewrite Hms.
    rewrite Update_machines_first;
      [|rewrite Hsid; by apply Forall_forall|congruence].
    apply (Update_devices_found c2 now2 _ m _ _ _ 0 j); [lia| |].
    + intros k Hk. rewrite Hids, Hdid. apply Hno. lia.
    + rewrite Hids. congruence.
  - unfold Update. rewrite Hms at 1.
    rewrite Update_machines_first;
      [|rewrite Hsid; by apply Forall_forall|congruence].
    rewrite (Update_devices_found c2 now2 _ m _ _ _ 0 j); [|lia| |congruence].
    + simpl. rewrite Hdid, insert_insert_eq.
      do 2 f_equal. rewrite Hms. rewrite !list_insert_id; try done.
      all: by apply list_lookup_middle.
    + intros k Hk. rewrite Hdid. apply Hno. lia.
  - intros a. fold a0. unfold store_write.
    destruct (decide (a = a0)) as [->|]; [|done].
    by rewrite decide_True.
Qed.

(** An instance of X5: the device "gpu1" of "rig-1" set to mining, then to
    idle. *)
Lemma Update_last_write_wins_witness :
  let s := SetSystemInfo [rig "rig-1" {| ptr := 0; len := 3 |}] NewLiveState in
  let c1 := {| MachineSID := "rig-1"; DeviceID := "gpu1"; Status := mining |} in
  let c2 := {| MachineSID := "rig-1"; DeviceID := "gpu1"; Status := idle |} in
  let r1 := Update c1 1000%Z sample_store s in
  ∃ h2 h2' s2,
    Update c2 2000%Z r1.1.2 r1.2 = (None, h2, s2)
    ∧ Update c2 2000%Z sample_store s = (None, h2', s2)
    ∧ ∀ a, h2 a = h2' a.
Proof.
  intros s c1 c2 r1.
  apply (Update_last_write_wins c1 1000%Z c2 2000%Z sample_store s
           r1.1.2 r1.2); reflexivity.
Defined.

(** ** More on the message decoders *)

Section More_decoders_facts.

Variable json_Unmarshal_string : string -> string + error.
Variable json_Unmarshal_bool : string -> bool + error.
Variable json_Unmarshal_DeviceStatus : string -> DeviceStatus.t + error.
Variable json_Unmarshal_MachineEntry :
  string -> Store -> (MachineEntry.t + error) * Store.

(** A list of [n] arguments has its [k]-th for [k < n]. *)
Lemma index_Returns {A} (l : list A) k :
  k < length l → ∃ a, index l k = Returns a ∧ l !! k = Some a.
Proof.
  intros Hk. unfold index. destruct (lookup_lt_is_Some_2 l k Hk) as [a Ha].
  rewrite Ha. by exists a.
Qed.

Lemma parseString_cases m :
  (∃ s, parseString json_Unmarshal_string m = (s, None)
        ∧ json_Unmarshal_string (bytes_of m) = inl s)
  ∨ (∃ e, parseString json_Unmarshal_string m
          = (EmptyString, Some (errors_Wrap e "unable to unmarshal as string"))
          ∧ json_Unmarshal_string (bytes_of m) = inr e).
Proof.
  unfold parseString. simpl.
  destruct (json_Unmarshal_string _) as [s|e]; [left|right]; eauto.
Qed.

Lemma parseBool_cases m :
  (∃ b, parseBool json_Unmarshal_bool m = (b, None)
        ∧ json_Unmarshal_bool (bytes_of m) = inl b)
  ∨ (∃ e, parseBool json_Unmarshal_bool m
          = (false, Some (errors_Wrap e "unable to unmarshal as bool"))
          ∧ json_Unmarshal_bool (bytes_of m) = inr e).
Proof.
  unfold parseBool. simpl.
  destruct (json_Unmarshal_bool _) as [b|e]; [left|right]; eauto.
Qed.

(** X6. No decoder of a record indexes an argument the message does not
    have: for every message and every behaviour of [json.Unmarshal], each of
    [ParseClientConnectedMessage], [ParseAppClosedMessage],
    [ParseStateChangedMessage] and [ParseStatusChangedMessage] returns, not
    panics, and what it returns is a record and the nil error, or the nil
    pointer and an error, never both and never neither. *)
Theorem decoders_return_a_record_or_an_error msg :
  value_or_error (ParseClientConnectedMessage json_Unmarshal_string msg)
  ∧ value_or_error (ParseAppClosedMessage json_Unmarshal_string msg)
  ∧ value_or_error
      (ParseStateChangedMessage json_Unmarshal_string json_Unmarshal_bool msg)
  ∧ value_or_error
      (ParseStatusChangedMessage json_Unmarshal_string
         json_Unmarshal_DeviceStatus msg).
Proof.
  assert (∀ A (v : A), value_or_error (Returns (Some v, None))) as Hok.
  { intros A v. exists (Some v), None. split; [done|]. split; eauto. }
  assert (∀ A e, value_or_error (A := A) (Returns (None, Some e))) as Herr.
  { intros A e. exists None, (Some e). split; [done|].
    split; [by intros [? ?]|done]. }
  repeat split.
  - unfold ParseClientConnectedMessage.
    destruct (checkMethodAndArgCount _ _ _) eqn:Hchk; [apply Herr|].
    apply checkMethodAndArgCount_nil in Hchk as [_ Hlen].
    destruct (index_Returns (Arguments msg) 0) as (a0 & -> & _); [lia|].
    simpl. destruct (parseString_cases a0) as [(s & -> & _)|(e & -> & _)];
      [apply Hok|apply Herr].
  - unfold ParseAppClosedMessage.
    destruct (checkMethodAndArgCount _ _ _) eqn:Hchk; [apply Herr|].
    apply checkMethodAndArgCount_nil in Hchk as [_ Hlen].
    destruct (index_Returns (Arguments msg) 0) as (a0 & -> & _); [lia|].
    destruct (index_Returns (Arguments msg) 1) as (a1 & -> & _); [lia|].
    simpl. destruct (parseString_cases a0) as [(s & -> & _)|(e & -> & _)];
      [|apply Herr].
    simpl. destruct (parseString_cases a1) as [(s1 & -> & _)|(e & -> & _)];
      [apply Hok|apply Herr].
  - unfold ParseStateChangedMessage.
    destruct (checkMethodAndArgCount _ _ _) eqn:Hchk; [apply Herr|].
    apply checkMethodAndArgCount_nil in Hchk as [_ Hlen].
    destruct (index_Returns (Arguments msg) 0) as (a0 & -> & _); [lia|].
    destruct (index_Returns (Arguments msg) 1) as (a1 & -> & _); [lia|].
    destruct (index_Returns (Arguments msg) 2) as (a2 & -> & _); [lia|].
    simpl. destruct (parseString_cases a0) as [(s & -> & _)|(e & -> & _)];
      [|apply Herr].
    simpl. destruct (parseString_cases a1) as [(s1 & -> & _)|(e & -> & _)];
      [|apply Herr].
    simpl. destruct (parseBool_cases a2) as [(b & -> & _)|(e & -> & _)];
      [apply Hok|apply Herr].
  - unfold ParseStatusChangedMessage.
    destruct (checkMethodAndArgCount _ _ _) eqn:Hchk; [apply Herr|].
    apply checkMethodAndArgCount_nil in Hchk as [_ Hlen].
    destruct (index_Returns (Arguments msg) 0) as (a0 & -> & _); [lia|].
    destruct (index_Returns (Arguments msg) 1) as (a1 & -> & _); [lia|].
    destruct (index_Returns (Arguments msg) 2) as (a2 & -> & _); [lia|].
    simpl. destruct (parseString_cases a0) as [(s & -> & _)|(e & -> & _)];
      [|apply Herr].
    simpl. destruct (parseString_cases a1) as [(s1 & -> & _)|(e & -> & _)];
      [|apply Herr].
    simpl. destruct (json_Unmarshal_DeviceStatus _); [apply Hok|apply Herr].
Qed.

(** Three arguments, and what the index expressions give. *)
Lemma three_arguments {A} (l : list A) :
  length l = 3 → ∃ a0 a1 a2, l = [a0; a1; a2].
Proof.
  destruct l as [|a0 [|a1 [|a2 [|? ?]]]]; try done. eauto.
Qed.

(** X7. [ParseStateChangedMessage] returns a record, and no error, exactly
    for a message whose method is [StateChanged], that has exactly three
    arguments, and the bytes of whose arguments decode as a string, a string
    and a bool; the record holds the three decoded values, in this order. *)
Theorem ParseStateChangedMessage_accepts msg r :
  ParseStateChangedMessage json_Unmarshal_string json_Unmarshal_bool msg
    = Returns (Some r, None)
  ↔ Method msg = MethodStateChanged
    ∧ ∃ a0 a1 a2,
        Arguments msg = [a0; a1; a2]
        ∧ json_Unmarshal_string (bytes_of a0)
          = inl (StateChangedMessage.MachineSID r)
        ∧ json_Unmarshal_string (bytes_of a1)
          = inl (StateChangedMessage.DeviceID r)
        ∧ json_Unmarshal_bool (bytes_of a2)
          = inl (StateChangedMessage.Enabled r).
Proof.
  unfold ParseStateChangedMessage. split.
  - destruct (checkMethodAndArgCount _ _ _) eqn:Hchk; [done|].
    apply checkMethodAndArgCount_nil in Hchk as [Hm Hlen].
    destruct (three_arguments _ Hlen) as (a0 & a1 & a2 & Ha).
    rewrite Ha. unfold index. simpl.
    destruct (parseString_cases a0) as [(s0 & -> & H0)|(e & -> & _)];
      [|done].
    simpl. destruct (parseString_cases a1) as [(s1 & -> & H1)|(e & -> & _)];
      [|done].
    simpl. destruct (parseBool_cases a2) as [(b & -> & H2)|(e & -> & _)];
      [|done].
    intros [= <-]. split; [done|]. exists a0, a1, a2. by simpl.
  - intros (Hm & a0 & a1 & a2 & Ha & H0 & H1 & H2).
    destruct (checkMethodAndArgCount _ _ _) eqn:Hchk.
    { assert (checkMethodAndArgCount msg MethodStateChanged 3 = None) as Hn.
      { apply checkMethodAndArgCount_nil. by rewrite Ha. }
      congruence. }
    rewrite Ha. unfold index. simpl.
    destruct (parseString_cases a0) as [(s0 & -> & H0')|(e & -> & H0')];
      [|congruence].
    simpl. destruct (parseString_cases a1) as [(s1 & -> & H1')|(e & -> & H1')];
      [|congruence].
    simpl. destruct (parseBool_cases a2) as [(b & -> & H2')|(e & -> & H2')];
      [|congruence].
    destruct r as [sid did en]. simpl in *. congruence.
Qed.

(** X8. [ParseStatusChangedMessage] returns a record, and no error, exactly
    for a message whose method is [StatusChanged], that has exactly three
    arguments, and the bytes of whose arguments decode as a string, a string
    and a device status; the record holds the three decoded values, in this
    order. *)
Theorem ParseStatusChangedMessage_accepts msg r :
  ParseStatusChangedMessage json_Unmarshal_string json_Unmarshal_DeviceStatus
    msg = Returns (Some r, None)
  ↔ Method msg = MethodStatusChanged
    ∧ ∃ a0 a1 a2,
        Arguments msg = [a0; a1; a2]
        ∧ json_Unmarshal_string (bytes_of a0)
          = inl (StatusChangedMessage.MachineSID r)
        ∧ json_Unmarshal_string (bytes_of a1)
          = inl (StatusChangedMessage.DeviceID r)
        ∧ json_Unmarshal_DeviceStatus (bytes_of a2)
          = inl (StatusChangedMessage.Status r).
Proof.
  unfold ParseStatusChangedMessage. split.
  - destruct (checkMethodAndArgCount _ _ _) eqn:Hchk; [done|].
    apply checkMethodAndArgCount_nil in Hchk as [Hm Hlen].
    destruct (three_arguments _ Hlen) as (a0 & a1 & a2 & Ha).
    rewrite Ha. unfold index. simpl.
    destruct (parseString_cases a0) as [(s0 & -> & H0)|(e & -> & _)];
      [|done].
    simpl. destruct (parseString_cases a1) as [(s1 & -> & H1)|(e & -> & _)];
      [|done].
    simpl. destruct (json_Unmarshal_DeviceStatus _) as [st|e] eqn:H2; [|done].
    intros [= <-]. split; [done|]. exists a0, a1, a2. by simpl.
  - intros (Hm & a0 & a1 & a2 & Ha & H0 & H1 & H2).
    destruct (checkMethodAndArgCount _ _ _) eqn:Hchk.
    { assert (checkMethodAndArgCount msg MethodStatusChanged 3 = None) as Hn.
      { apply checkMethodAndArgCount_nil. by rewrite Ha. }
      congruence. }
    rewrite Ha. unfold index. simpl.
    destruct (parseString_cases a0) as [(s0 & -> & H0')|(e & -> & H0')];
      [|congruence].
    simpl. destruct (parseString_cases a1) as [(s1 & -> & H1')|(e & -> & H1')];
      [|congruence].
    simpl. unfold bytes_of in H2. rewrite H2.
    destruct r as [sid did st]. simpl in *. congruence.
Qed.

(** X9. [ParseSystemInfoMessage] never panics.  It returns a list of exactly
    one machine and no error, and then the method is [SetSystemInfo] and
    there are three arguments; or it returns the nil list and an error.  The
    method is checked before the number of arguments, and a message refused
    by either check is not decoded: the store is as it was. *)
Theorem ParseSystemInfoMessage_result msg h :
  let r := ParseSystemInfoMessage json_Unmarshal_MachineEntry msg h in
  ∃ v e,
    r.1 = Returns (v, e)
    ∧ match v with
      | Some l =>
          e = None ∧ length l = 1 ∧ Method msg = MethodSetSystemInfo
          ∧ length (Arguments msg) = 3
      | None => is_Some e
      end
    ∧ (Method msg ≠ MethodSetSystemInfo
       → e = Some (errors_New "not a SystemInfo message") ∧ r.2 = h)
    ∧ (Method msg = MethodSetSystemInfo → length (Arguments msg) ≠ 3
       → e = Some (errors_New "expected 3 arguments") ∧ r.2 = h).
Proof.
  cbv zeta. unfold ParseSystemInfoMessage.
  destruct (decide (Method msg ≠ MethodSetSystemInfo)) as [Hm|Hm].
  { exists None, (Some (errors_New "not a SystemInfo message")). simpl.
    split; [done|]. split; [by eexists|]. split; [done|]. by intros ?. }
  apply dec_stable in Hm.
  destruct (decide (length (Arguments msg) ≠ 3)) as [Hn|Hn].
  { exists None, (Some (errors_New "expected 3 arguments")). simpl.
    split; [done|]. split; [by eexists|]. split; [by intros ?|done]. }
  apply dec_stable in Hn.
  destruct (three_arguments _ Hn) as (a0 & a1 & a2 & Ha).
  rewrite Ha. unfold index. simpl.
  destruct (json_Unmarshal_MachineEntry _ h) as [[m|err] h'].
  - exists (Some [m]), None. simpl. rewrite Ha in Hn.
    split; [done|]. split; [done|]. split; [by intros ?|].
    intros _ Hne. by destruct Hne.
  - eexists None, _. simpl.
    split; [done|]. split; [by eexists|]. split; [by intros ?|].
    intros _ Hne. by destruct Hne.
Qed.

(** X10. A decoder refuses the messages of every method but its own: for a
    message whose method is not the decoder's, each of the five decoders
    returns no value and an error, whatever the arguments are; the error of
    the four decoders of records reads [invalid message: not a M message]
    with [M] the decoder's method, that of [ParseSystemInfoMessage] reads
    [not a SystemInfo message].  So at most one decoder accepts a given
    message. *)
Theorem decoders_refuse_other_methods msg h M r :
  (M, r) ∈ decoders json_Unmarshal_string json_Unmarshal_bool
             json_Unmarshal_DeviceStatus json_Unmarshal_MachineEntry msg h →
  M ≠ Method msg →
  ∃ e, r = Returns (false, Some e)
       ∧ (Error e = "invalid message: not a " +:+ M +:+ " message"
          ∨ M = MethodSetSystemInfo ∧ Error e = "not a SystemInfo message").
Proof.
  intros Hin HM. unfold decoders in Hin.
  repeat (apply elem_of_cons in Hin as [[= -> ->]|Hin]);
    [..|by apply elem_of_nil in Hin].
  1-4: unfold ParseClientConnectedMessage, ParseAppClosedMessage,
         ParseStateChangedMessage, ParseStatusChangedMessage,
         checkMethodAndArgCount;
       (destruct (decide (Method msg ≠ _)) as [_|Hn]; [|by destruct Hn]);
       eexists; (split; [done|]); by left.
  unfold ParseSystemInfoMessage.
  destruct (decide (Method msg ≠ MethodSetSystemInfo)) as [_|Hn];
    [|by destruct Hn].
  eexists. split; [done|]. by right.
Qed.

End More_decoders_facts.

(** A [StatusChanged] message of three nulls, given to the decoder of
    [AppClosed]. *)
Lemma decoders_refuse_other_methods_witness :
  ∃ e, verdict (ParseAppClosedMessage (Unmarshal_null EmptyString)
                  {| Host := "reportinghub"; Method := "StatusChanged";
                     Arguments := [None; None; None] |})
       = Returns (false, Some e)
       ∧ (Error e = "invalid message: not a AppClosed message"
          ∨ MethodAppClosed = MethodSetSystemInfo
            ∧ Error e = "not a SystemInfo message").
Proof.
  apply (decoders_refuse_other_methods (Unmarshal_null EmptyString)
           (fun _ => inl false) (fun _ => inl zero_DeviceStatus)
           Unmarshal_null_MachineEntry
           {| Host := "reportinghub"; Method := "StatusChanged";
              Arguments := [None; None; None] |} sample_store
           MethodAppClosed
           (verdict (ParseAppClosedMessage (Unmarshal_null EmptyString)
                       {| Host := "reportinghub"; Method := "StatusChanged";
                          Arguments := [None; None; None] |}))).
  - unfold decoders. right. left.
  - vm_compute. discriminate.
Defined.

(** ** Reading the socket *)

Section Reading_facts.

Variable json_Unmarshal : string -> RawMessageContainer + error.

(** What [isInterestingChannel] answers but [false] comes from
    [isInteresting], on the container the bytes decode to. *)
Lemma isInterestingChannel_decoded b r :
  isInterestingChannel json_Unmarshal b = r → r ≠ Returns false →
  ∃ c, 10 ≤ String.length b
       ∧ json_Unmarshal b = inl c
       ∧ isInteresting c = r.
Proof.
  unfold isInterestingChannel.
  destruct (decide (String.length b < 10)) as [Hlt|Hge]; [congruence|].
  destruct (json_Unmarshal b) as [c|e]; [|congruence].
  intros Hr _. exists c. split; [lia|done].
Qed.

(** X11. Bytes that [isInterestingChannel] finds interesting are bytes that
    [parseMessage] decodes: for every behaviour of [json.Unmarshal], if
    [isInterestingChannel b] is true, then [b] has ten bytes or more and
    [parseMessage b] returns, with no error, a container on which
    [isInteresting] is true. *)
Theorem isInterestingChannel_true_parses b :
  isInterestingChannel json_Unmarshal b = Returns true →
  ∃ c, parseMessage json_Unmarshal b = (Some c, None)
       ∧ isInteresting c = Returns true
       ∧ 10 ≤ String.length b.
Proof.
  intros Hb.
  destruct (isInterestingChannel_decoded b _ Hb) as (c & Hlen & Hc & Hi);
    [done|].
  exists c. unfold parseMessage.
  rewrite decide_False by lia. by rewrite Hc.
Qed.

(** X12. [ReadNextInterestingMessages] ends at the first [Read] that fails
    or the first text frame that is interesting, and passes over every frame
    before it; while all frames are passed over it goes on reading.  It
    returns a container, and no error, exactly from a text frame that
    decodes to it and on which [isInteresting] is true.  The only error it
    returns is the error of a failed [Read], wrapped as [read failed], with
    the nil container: its branch [unable to parse message] is never taken.
    It panics where [isInteresting] panics on the decoded frame. *)
Theorem ReadNextInterestingMessages_result reads :
  match ReadNextInterestingMessages json_Unmarshal reads with
  | None => Forall (passed_over json_Unmarshal) reads
  | Some r =>
      ∃ skipped f rest,
        reads = skipped ++ f :: rest
        ∧ Forall (passed_over json_Unmarshal) skipped
        ∧ match r with
          | Returns (Some c, None) =>
              text_frame_of json_Unmarshal c f
              ∧ isInteresting c = Returns true
          | Returns (None, Some e) =>
              ∃ e0, f.2 = Some e0 ∧ e = errors_Wrap e0 "read failed"
          | Returns _ => False
          | Panics msg =>
              ∃ c, text_frame_of json_Unmarshal c f
                   ∧ isInteresting c = Panics msg
          end
  end.
Proof.
  induction reads as [|[[mType b] err] reads IH]; simpl; [done|].
  destruct err as [e0|].
  { exists [], (mType, b, Some e0), reads. split; [done|].
    split; [done|]. by exists e0. }
  destruct (decide (mType ≠ TextMessage)) as [Hne|Htext].
  { assert (passed_over json_Unmarshal (mType, b, None)) as Hp
      by (split; [done|by left]).
    destruct (ReadNextInterestingMessages json_Unmarshal reads) as [r|].
    - destruct IH as (skipped & f & rest & -> & Hsk & Hr).
      exists ((mType, b, None) :: skipped), f, rest.
      split; [done|]. split; [by constructor|done].
    - by constructor. }
  apply dec_stable in Htext.
  destruct (isInterestingChannel json_Unmarshal b) as [[|]|msg] eqn:Hb.
  - destruct (isInterestingChannel_decoded b _ Hb) as (c & Hlen & Hc & Hi);
      [done|].
    unfold parseMessage. rewrite decide_False by lia. rewrite Hc.
    exists [], (mType, b, None), reads. split; [done|]. split; [done|].
    by split.
  - assert (passed_over json_Unmarshal (mType, b, None)) as Hp
      by (split; [done|by right]).
    destruct (ReadNextInterestingMessages json_Unmarshal reads) as [r|].
    + destruct IH as (skipped & f & rest & -> & Hsk & Hr).
      exists ((mType, b, None) :: skipped), f, rest.
      split; [done|]. split; [by constructor|done].
    + by constructor.
  - destruct (isInterestingChannel_decoded b _ Hb) as (c & Hlen & Hc & Hi);
      [done|].
    exists [], (mType, b, None), reads. split; [done|]. split; [done|].
    exists c. by split.
Qed.

End Reading_facts.

(** The sample decoder, given a frame of sixteen bytes. *)
Lemma isInterestingChannel_true_parses_witness :
  ∃ c, parseMessage sample_decode "{'C':'d','M':[]}" = (Some c, None)
       ∧ isInteresting c = Returns true
       ∧ 10 ≤ String.length "{'C':'d','M':[]}".
Proof.
  apply (isInterestingChannel_true_parses sample_decode "{'C':'d','M':[]}").
  vm_compute. reflexivity.
Defined.

(** ** More on the session *)

(** A run without calls of [Read] is a run of the session. *)
Lemma reading_Event evs s :
  reading (Event <$> evs) s
  = match steps evs s with Some s' => Some ([], s') | None => None end.
Proof.
  revert s. induction evs as [|e evs IH]; intros s; simpl; [done|].
  destruct (step e s) as [s1|]; [apply IH|done].
Qed.

(** A call of [Read] changes the session by the receive on [c.err] it makes,
    if any. *)
Lemma Read_step k frame s r s' :
  Read k frame s = Some (r, s') →
  s' = s ∨ ∃ b, k = CaseErr b ∧ step (EvReceiveErr b) s = Some s'.
Proof.
  unfold Read. destruct (panicked s); [done|].
  destruct k as [|b| |].
  - destruct (closed s); [done|]. intros [= _ <-]. by left.
  - destruct (if b then pinger s else keeper s); try done.
    destruct (err s); [|done].
    destruct (step (EvReceiveErr b) s) as [s1|] eqn:Hstep; [|done].
    intros [= _ <-]. right. by exists b.
  - destruct (err s); [done|]. intros [= _ <-]. by left.
  - destruct (closed s), (err s), (sending s); try done.
    intros [= _ <-]. by left.
Qed.

(** A property that the steps of a session keep is kept by the runs that
    are read. *)
Lemma reading_keeps (P : Session → Prop) :
  (∀ e s s', step e s = Some s' → P s → P s') →
  ∀ acts s rs s', reading acts s = Some (rs, s') → P s → P s'.
Proof.
  intros Hstep acts. induction acts as [|[e|k frame] acts IH];
    intros s rs s'; simpl.
  - by intros [= _ <-].
  - destruct (step e s) as [s1|] eqn:He; [|done].
    intros Hrun Hs. eapply IH; [done|]. by eapply Hstep.
  - destruct (Read k frame s) as [[r s1]|] eqn:Hread; [|done].
    destruct (reading acts s1) as [[rs1 s2]|] eqn:Hrun; [|done].
    intros [= _ <-] Hs. eapply IH; [done|].
    destruct (Read_step _ _ _ _ _ Hread) as [->|(b & _ & Hb)]; [done|].
    by eapply Hstep.
Qed.

Lemma reading_session_invariant acts s rs s' :
  reading acts s = Some (rs, s') → session_invariant s → session_invariant s'.
Proof. apply reading_keeps. apply step_session_invariant. Qed.

(** X13. With one caller of [close], a session never panics, whatever the
    order in which the two goroutines, the calls of [close] and the calls
    of [Read] take their steps: in every state a session reaches, no
    goroutine is sending on the closed [c.err], and [close] is about to
    close [c.closed] or [c.err] only while that channel is open. *)
Theorem session_never_panics now r log s0 acts rs s :
  newWebsocketClient now r = (log, inl s0) →
  reading acts s0 = Some (rs, s) →
  panicked s = false
  ∧ (∀ b, step (EvSendOnClosed b) s = None)
  ∧ (caller s = InClose AtCloseClosed → closed s = ChanOpen)
  ∧ (caller s = InClose AtCloseErr → err s = ChanOpen).
Proof.
  intros Hnew Hrun.
  destruct (newWebsocketClient_session _ _ _ _ Hnew) as (_ & Hinv0 & _).
  pose proof (reading_session_invariant _ _ _ _ Hrun Hinv0) as [Hp Hphase].
  split; [done|]. unfold step. rewrite Hp.
  destruct Hphase as [Ho|[Hc|Hd]].
  - destruct Ho as (Hcl & Her & _). rewrite Her.
    split; [|by split].
    intros []; [by destruct (pinger s)|by destruct (keeper s)].
  - destruct Hc as (Hcl & Her & _ & _ & Hca). rewrite Her.
    split; [intros []; [by destruct (pinger s)|by destruct (keeper s)]|].
    split; [|done]. intros Heq. rewrite Heq in Hca.
    by destruct Hca as [?|[[? _]|[? _]]].
  - destruct Hd as (Hcl & Her & _ & Hpg & Hkp & _ & _ & Hca).
    rewrite Hpg, Hkp. split; [by intros []|].
    split; intros Heq; rewrite Heq in Hca; by destruct Hca.
Qed.

(** A session that pings, is closed and is read three times. *)
Lemma session_never_panics_witness :
  ∃ log s0 rs s,
    newWebsocketClient sample_now accepting = (log, inl s0)
    ∧ reading ((Event <$> closing_once) ++ reads_after_close) s0
      = Some (rs, s)
    ∧ length rs = 3
    ∧ panicked s = false
    ∧ step (EvSendOnClosed true) s = None.
Proof.
  evar (log : list call). evar (s0 : Session).
  evar (rs : list read_result). evar (s : Session).
  assert (newWebsocketClient sample_now accepting = (log, inl s0)) as Hnew
    by (subst log s0; vm_compute; reflexivity).
  assert (reading ((Event <$> closing_once) ++ reads_after_close) s0
          = Some (rs, s)) as Hrun
    by (subst s0 rs s; vm_compute; reflexivity).
  destruct (session_never_panics sample_now accepting log s0 _ rs s
              Hnew Hrun) as (Hp & Hsend & _).
  exists log, s0, rs, s. split; [exact Hnew|]. split; [exact Hrun|].
  split; [subst rs; vm_compute; reflexivity|].
  split; [exact Hp|exact (Hsend true)].
Defined.

(** The steps of a session keep [released_late], given the invariant. *)
Lemma step_released_late e s s' :
  step e s = Some s' → session_invariant s → released_late s →
  released_late s'.
Proof.
  destruct s as [n tok host cn cl er ws w pg kp ca cr pa cs].
  unfold step, session_invariant, released_late. simpl.
  intros Hstep [-> Hphase] Hlate.
  destruct e as [reply| |reply| |[]|[]| |]; simpl in Hstep.
  - destruct pg; try done. injection Hstep as <-. simpl.
    intros Hws. by destruct (Hlate Hws).
  - destruct pg, cl; try done. injection Hstep as <-. simpl.
    intros Hws. by destruct (Hlate Hws).
  - destruct kp; try done. intros Hws.
    destruct reply; injection Hstep as <-; simpl in Hws;
      by destruct (Hlate Hws).
  - destruct kp, cl; try done. injection Hstep as <-. simpl.
    intros Hws. by destruct (Hlate Hws).
  - destruct pg, er; try done. injection Hstep as <-. simpl.
    intros Hws. by destruct (Hlate Hws).
  - destruct kp, er; try done. injection Hstep as <-. simpl.
    intros Hws. by destruct (Hlate Hws).
  - destruct pg, er; try done. injection Hstep as <-. done.
  - destruct kp, er; try done. injection Hstep as <-. done.
  - destruct ca; try done. injection Hstep as <-. done.
  - destruct ca as [|pc]; [done|].
    destruct pc; simpl in Hstep.
    + destruct cl; injection Hstep as <-; done.
    + destruct cl; injection Hstep as <-; done.
    + destruct w; [|done]. injection Hstep as <-. done.
    + injection Hstep as <-. simpl. intros _.
      destruct Hphase as [Ho|[Hc|Hd]].
      * unfold phase_open in Ho. simpl in Ho.
        destruct Ho as (_ & _ & _ & _ & _ & _ & _ & Hca).
        by destruct Hca as [?|[?|?]].
      * unfold phase_closing, running in Hc. simpl in Hc.
        destruct Hc as (_ & _ & Hw & _ & Hca).
        destruct Hca as [?|[[_ ->]|[? _]]]; try done.
        destruct pg, kp; simpl in Hw; try lia. done.
      * unfold phase_closed in Hd. simpl in Hd.
        destruct Hd as (_ & _ & _ & -> & -> & _). done.
    + destruct er; injection Hstep as <-; done.
Qed.

Lemma steps_released_late evs s s' :
  steps evs s = Some s' → session_invariant s → released_late s →
  released_late s'.
Proof.
  revert s. induction evs as [|e evs IH]; intros s; simpl.
  - by intros [= <-].
  - destruct (step e s) as [s1|] eqn:Hstep; [|done].
    intros Hsteps Hinv Hlate. apply (IH s1 Hsteps).
    + by eapply step_session_invariant.
    + by eapply step_released_late.
Qed.

(** The session [newWebsocketClient] returns has its socket open. *)
Lemma newWebsocketClient_released_late now r log s0 :
  newWebsocketClient now r = (log, inl s0) → released_late s0.
Proof.
  unfold newWebsocketClient.
  destruct (auth2_reply r); [|done]. destruct (negotiate_reply r); [|done].
  destruct (connect_reply r); [done|]. destruct (start_reply r); [done|].
  by intros [= _ <-].
Qed.

(** X14. [close] releases the socket last: in every state a session
    reaches, if the socket is closed, then both goroutines have returned
    and [c.closed] is closed; so the keep-alive goroutine never writes a
    frame on a socket that [close] has closed. *)
Theorem socket_is_released_last now r log s0 evs s :
  newWebsocketClient now r = (log, inl s0) →
  steps evs s0 = Some s →
  ws_open s = false →
  pinger s = Exited ∧ keeper s = Exited ∧ closed s = ChanClosed
  ∧ ∀ reply, step (EvKeepAliveTick reply) s = None.
Proof.
  intros Hnew Hrun Hws.
  destruct (newWebsocketClient_session _ _ _ _ Hnew) as (_ & Hinv0 & _).
  pose proof (newWebsocketClient_released_late _ _ _ _ Hnew) as Hlate0.
  pose proof (steps_session_invariant _ _ _ Hrun Hinv0) as [Hp Hphase].
  destruct (steps_released_late _ _ _ Hrun Hinv0 Hlate0 Hws) as [Hpg Hkp].
  split; [done|]. split; [done|]. split.
  - destruct Hphase as [Ho|[Hc|Hd]].
    + destruct Ho as (_ & _ & Hopen & _). congruence.
    + by destruct Hc.
    + by destruct Hd.
  - intros reply. unfold step. rewrite Hp, Hkp. done.
Qed.

Lemma socket_is_released_last_witness :
  ∃ log s0 s,
    newWebsocketClient sample_now accepting = (log, inl s0)
    ∧ steps closing_once s0 = Some s
    ∧ ws_open s = false
    ∧ pinger s = Exited ∧ keeper s = Exited.
Proof.
  evar (log : list call). evar (s0 : Session). evar (s : Session).
  assert (newWebsocketClient sample_now accepting = (log, inl s0)) as Hnew
    by (subst log s0; vm_compute; reflexivity).
  assert (steps closing_once s0 = Some s) as Hrun
    by (subst s0 s; vm_compute; reflexivity).
  assert (ws_open s = false) as Hws by (subst s; vm_compute; reflexivity).
  destruct (socket_is_released_last sample_now accepting log s0
              closing_once s Hnew Hrun Hws) as (Hpg & Hkp & _).
  exists log, s0, s. split; [exact Hnew|]. split; [exact Hrun|].
  split; [exact Hws|]. split; [exact Hpg|exact Hkp].
Defined.

(** A ping is no keep-alive frame. *)
Lemma omap_call_I_ping log n tok host :
  omap call_I (log ++ [CallPing n tok host]) = omap call_I log.
Proof. rewrite omap_app. simpl. by rewrite app_nil_r. Qed.

Lemma omap_call_I_frame log i :
  omap call_I (log ++ [CallKeepAlive i]) = omap call_I log ++ [i].
Proof. by rewrite omap_app. Qed.

(** The steps of a session keep [counts_frames]. *)
Lemma step_counts_frames e s s' :
  step e s = Some s' → counts_frames s → counts_frames s'.
Proof.
  destruct s as [n tok host cn cl er ws w pg kp ca cr pa cs].
  unfold step, counts_frames. simpl.
  intros Hstep (k & Hids & Hcn). destruct pa; [done|].
  destruct e as [reply| |reply| |[]|[]| |]; simpl in Hstep.
  - destruct pg; try done. injection Hstep as <-. simpl.
    exists k. by rewrite omap_call_I_ping.
  - destruct pg, cl; try done. injection Hstep as <-. simpl. by exists k.
  - destruct kp; try done.
    destruct reply; injection Hstep as <-; simpl; exists (S k);
      rewrite omap_call_I_frame, Hids, seq_S, fmap_app, Hcn; simpl.
    + split; [done|]. f_equal. lia.
    + split; [done|]. rewrite wrap64_succ. f_equal. lia.
  - destruct kp, cl; try done. injection Hstep as <-. simpl. by exists k.
  - destruct pg, er; try done. injection Hstep as <-. simpl. by exists k.
  - destruct kp, er; try done. injection Hstep as <-. simpl.
    exists k. split; [done|]. rewrite Hcn, wrap64_succ. f_equal. lia.
  - destruct pg, er; try done. injection Hstep as <-. simpl. by exists k.
  - destruct kp, er; try done. injection Hstep as <-. simpl. by exists k.
  - destruct ca; try done. injection Hstep as <-. simpl. by exists k.
  - destruct ca as [|pc]; [done|].
    destruct pc; simpl in Hstep.
    + destruct cl; injection Hstep as <-; simpl; by exists k.
    + destruct cl; injection Hstep as <-; simpl; by exists k.
    + destruct w; [|done]. injection Hstep as <-. simpl. by exists k.
    + injection Hstep as <-. simpl. by exists k.
    + destruct er; injection Hstep as <-; simpl; by exists k.
Qed.

Lemma steps_counts_frames evs s s' :
  steps evs s = Some s' → counts_frames s → counts_frames s'.
Proof.
  revert s. induction evs as [|e evs IH]; intros s; simpl.
  - by intros [= <-].
  - destruct (step e s) as [s1|] eqn:Hstep; [|done].
    intros Hsteps Hs. apply (IH s1 Hsteps). by eapply step_counts_frames.
Qed.

(** X15. The keep-alive frames of a session are numbered 1, 2, 3, ... in
    the order they are written, whatever the nonce of the pings is and
    whatever else happens in the session: a frame whose write failed keeps
    its number, and the next frame has the next one.  [currentNonce] is an
    [int] with wrap-around; the statement is for sessions of at most 2^62
    frames. *)
Theorem keep_alive_frames_count_from_one now r log s0 evs s :
  newWebsocketClient now r = (log, inl s0) →
  steps evs s0 = Some s →
  (Z.of_nat (length (omap call_I (calls s))) ≤ 2 ^ 62)%Z →
  omap call_I log = []
  ∧ ∀ i x, omap call_I (calls s) !! i = Some x → x = (1 + Z.of_nat i)%Z.
Proof.
  intros Hnew Hrun Hlen.
  assert (omap call_I log = [] ∧ counts_frames s0) as [Hlog Hc0].
  { revert Hnew. unfold newWebsocketClient.
    destruct (auth2_reply r); [|done]. destruct (negotiate_reply r); [|done].
    destruct (connect_reply r); [done|]. destruct (start_reply r); [done|].
    intros [= <- <-]. split; [done|]. by exists 0. }
  split; [done|].
  destruct (steps_counts_frames _ _ _ Hrun Hc0) as (n & Hids & _).
  rewrite Hids in Hlen |- *. rewrite length_fmap, length_seq in Hlen.
  intros i x Hx. rewrite list_lookup_fmap in Hx.
  apply fmap_Some in Hx as (k & Hk & ->).
  apply lookup_seq in Hk as [-> Hk]. simpl.
  apply wrap64_id. unfold is_int64. lia.
Qed.

(** A session that pings, pings again with an error that is read, and
    writes one keep-alive frame. *)
Lemma keep_alive_frames_count_from_one_witness :
  ∃ log s0 s,
    newWebsocketClient sample_now accepting = (log, inl s0)
    ∧ steps (pinging ++ [EvKeepAliveTick None]) s0 = Some s
    ∧ omap call_I (calls s) = [1; 2]%Z
    ∧ ∀ i x, omap call_I (calls s) !! i = Some x → x = (1 + Z.of_nat i)%Z.
Proof.
  evar (log : list call). evar (s0 : Session). evar (s : Session).
  assert (newWebsocketClient sample_now accepting = (log, inl s0)) as Hnew
    by (subst log s0; vm_compute; reflexivity).
  assert (steps (pinging ++ [EvKeepAliveTick None]) s0 = Some s) as Hrun
    by (subst s0 s; vm_compute; reflexivity).
  assert (omap call_I (calls s) = [1; 2]%Z) as Hids
    by (subst s; vm_compute; reflexivity).
  assert (Z.of_nat (length (omap call_I (calls s))) ≤ 2 ^ 62)%Z as Hlen
    by (rewrite Hids; vm_compute; discriminate).
  destruct (keep_alive_frames_count_from_one sample_now accepting log s0
              _ s Hnew Hrun Hlen) as [_ Hcount].
  exists log, s0, s. split; [exact Hnew|]. split; [exact Hrun|].
  split; [exact Hids|exact Hcount].
Defined.

(** A goroutine blocked sending stays so until its error is received. *)
Lemma step_keeps_sending b e ev s s' :
  goroutine_of b s = Sending e → ev ≠ EvReceiveErr b →
  step ev s = Some s' → goroutine_of b s' = Sending e.
Proof.
  destruct s as [n tok host cn cl er ws w pg kp ca cr pa cs].
  unfold step, goroutine_of. simpl. intros Hb Hev. destruct pa; [done|].
  destruct ev as [reply| |reply| |[]|[]| |]; simpl; intros Hstep.
  - destruct pg; try done. injection Hstep as <-. simpl.
    destruct b; [done|]. done.
  - destruct pg, cl; try done. injection Hstep as <-. simpl.
    by destruct b.
  - destruct kp; try done.
    destruct reply; injection Hstep as <-; simpl; by destruct b.
  - destruct kp, cl; try done. injection Hstep as <-. simpl. by destruct b.
  - destruct pg, er; try done. injection Hstep as <-. simpl.
    destruct b; [by destruct Hev|done].
  - destruct kp, er; try done. injection Hstep as <-. simpl.
    destruct b; [done|by destruct Hev].
  - destruct pg, er; try done. injection Hstep as <-. done.
  - destruct kp, er; try done. injection Hstep as <-. done.
  - destruct ca; try done. injection Hstep as <-. done.
  - destruct ca as [|pc]; [done|].
    destruct pc; simpl in Hstep.
    + destruct cl; injection Hstep as <-; done.
    + destruct cl; injection Hstep as <-; done.
    + destruct w; [|done]. injection Hstep as <-. done.
    + injection Hstep as <-. done.
    + destruct er; injection Hstep as <-; done.
Qed.

Lemma steps_keeps_sending b e evs s s' :
  goroutine_of b s = Sending e → EvReceiveErr b ∉ evs →
  steps evs s = Some s' → goroutine_of b s' = Sending e.
Proof.
  revert s. induction evs as [|ev evs IH]; intros s Hb Hno; simpl.
  - by intros [= <-].
  - destruct (step ev s) as [s1|] eqn:Hstep; [|done]. intros Hrun.
    apply not_elem_of_cons in Hno as [Hne Hno].
    apply (IH s1); [|done..].
    eapply step_keeps_sending; [done| |done]. congruence.
Qed.

(** While a goroutine is blocked sending, no call of [close] has returned,
    the wait group is not at zero, [c.err] is open. *)
Lemma sending_blocks_close b e s :
  session_invariant s → goroutine_of b s = Sending e →
  closes_returned s = 0 ∧ 1 ≤ wg s ∧ err s = ChanOpen.
Proof.
  intros [_ [Ho|[Hc|Hd]]] Hb.
  - destruct Ho as (_ & Her & _ & _ & _ & Hw & Hcr & _).
    split; [done|]. split; [lia|done].
  - destruct Hc as (_ & Her & Hw & Hcr & _).
    split; [done|]. split; [|done]. rewrite Hw. unfold running.
    unfold goroutine_of in Hb. destruct b; rewrite Hb; lia.
  - destruct Hd as (_ & _ & _ & Hpg & Hkp & _).
    unfold goroutine_of in Hb. destruct b; congruence.
Qed.

(** X16. [close] does not return while an error is unread: from a state in
    which a goroutine is blocked sending its error on [c.err], and as long
    as nobody receives that error, the goroutine stays blocked, no call of
    [close] returns, the wait group stays above zero, and the socket and
    [c.err] stay open, whatever steps the other goroutine and the call of
    [close] take. *)
Theorem close_waits_for_an_unread_error now r log s0 evs s b e evs' s' :
  newWebsocketClient now r = (log, inl s0) →
  steps evs s0 = Some s →
  goroutine_of b s = Sending e →
  EvReceiveErr b ∉ evs' →
  steps evs' s = Some s' →
  goroutine_of b s' = Sending e
  ∧ closes_returned s' = 0 ∧ 1 ≤ wg s'
  ∧ err s' = ChanOpen ∧ ws_open s' = true.
Proof.
  intros Hnew Hrun Hb Hno Hrun'.
  destruct (newWebsocketClient_session _ _ _ _ Hnew) as (_ & Hinv0 & _).
  pose proof (newWebsocketClient_released_late _ _ _ _ Hnew) as Hlate0.
  pose proof (steps_session_invariant _ _ _ Hrun Hinv0) as Hinv.
  pose proof (steps_released_late _ _ _ Hrun Hinv0 Hlate0) as Hlate.
  pose proof (steps_keeps_sending _ _ _ _ _ Hb Hno Hrun') as Hb'.
  pose proof (steps_session_invariant _ _ _ Hrun' Hinv) as Hinv'.
  pose proof (steps_released_late _ _ _ Hrun' Hinv Hlate) as Hlate'.
  destruct (sending_blocks_close _ _ _ Hinv' Hb') as (Hcr & Hw & Her).
  split; [done|]. split; [done|]. split; [done|]. split; [done|].
  destruct (ws_open s') eqn:Hws; [done|].
  destruct (Hlate' Hws) as [Hpg Hkp].
  unfold goroutine_of in Hb'. destruct b; congruence.
Qed.

(** A ping fails; [close] is called before the error is read, closes
    [c.closed], the keep-alive goroutine returns, and the call waits. *)
Lemma close_waits_for_an_unread_error_witness :
  ∃ log s0 s e s',
    newWebsocketClient sample_now accepting = (log, inl s0)
    ∧ steps failing_ping s0 = Some s
    ∧ pinger s = Sending e
    ∧ steps closing_unread s = Some s'
    ∧ caller s' = InClose AtWait
    ∧ step EvCloseStep s' = None
    ∧ pinger s' = Sending e ∧ closes_returned s' = 0.
Proof.
  evar (log : list call). evar (s0 : Session). evar (s : Session).
  evar (e : error). evar (s' : Session).
  assert (newWebsocketClient sample_now accepting = (log, inl s0)) as Hnew
    by (subst log s0; vm_compute; reflexivity).
  assert (steps failing_ping s0 = Some s) as Hrun
    by (subst s0 s; vm_compute; reflexivity).
  assert (goroutine_of true s = Sending e) as Hb
    by (subst s e; vm_compute; reflexivity).
  assert (EvReceiveErr true ∉ closing_unread) as Hno
    by (unfold closing_unread; rewrite !not_elem_of_cons;
        repeat split; try discriminate; apply not_elem_of_nil).
  assert (steps closing_unread s = Some s') as Hrun'
    by (subst s s'; vm_compute; reflexivity).
  destruct (close_waits_for_an_unread_error sample_now accepting log s0
              failing_ping s true e closing_unread s' Hnew Hrun Hb Hno Hrun')
    as (Hb' & Hcr & _).
  exists log, s0, s, e, s'. split; [exact Hnew|]. split; [exact Hrun|].
  split; [exact Hb|]. split; [exact Hrun'|].
  split; [subst s'; vm_compute; reflexivity|].
  split; [subst s'; vm_compute; reflexivity|].
  split; [exact Hb'|exact Hcr].
Defined.

(** X17. Calling [close] while both goroutines are at their [select] does
    not make sure that it returns.  The call finds [c.closed] open and
    closes it; but the ping goroutine may still take a tick, its [select]
    choosing among the cases that are ready, and when that ping fails the
    goroutine blocks sending the error on [c.err].  The call is then at
    [wg.Wait()], which cannot pass; and as long as no [Read] receives the
    error, whatever else happens, no call of [close] returns, the goroutine
    stays blocked and the socket stays open. *)
Theorem close_may_wait_for_ever now r log s0 evs s e0 :
  newWebsocketClient now r = (log, inl s0) →
  steps evs s0 = Some s →
  caller s = Idle → closed s = ChanOpen →
  pinger s = AtSelect → keeper s = AtSelect →
  ∃ s1,
    steps [EvCloseCall; EvCloseStep; EvCloseStep; EvPingTick (Some e0)] s
    = Some s1
    ∧ closed s1 = ChanClosed ∧ caller s1 = InClose AtWait
    ∧ pinger s1 = Sending (errors_Wrap e0 "unable to ping signalr")
    ∧ step EvCloseStep s1 = None
    ∧ ∀ evs' s',
        EvReceiveErr true ∉ evs' → steps evs' s1 = Some s' →
        closes_returned s' = 0 ∧ 1 ≤ wg s' ∧ ws_open s' = true
        ∧ pinger s' = Sending (errors_Wrap e0 "unable to ping signalr").
Proof.
  intros Hnew Hrun Hca Hcl Hpg Hkp.
  destruct (newWebsocketClient_session _ _ _ _ Hnew) as (_ & Hinv0 & _).
  pose proof (newWebsocketClient_released_late _ _ _ _ Hnew) as Hlate0.
  pose proof (steps_session_invariant _ _ _ Hrun Hinv0) as Hinv.
  pose proof (steps_released_late _ _ _ Hrun Hinv0 Hlate0) as Hlate.
  destruct (steps [EvCloseCall; EvCloseStep; EvCloseStep;
                   EvPingTick (Some e0)] s) as [s1|] eqn:Hrun1.
  - pose proof (steps_session_invariant _ _ _ Hrun1 Hinv) as Hinv1.
    pose proof (steps_released_late _ _ _ Hrun1 Hinv Hlate) as Hlate1.
    assert (closed s1 = ChanClosed ∧ caller s1 = InClose AtWait
            ∧ pinger s1 = Sending (errors_Wrap e0 "unable to ping signalr")
            ∧ wg s1 = 2) as (Hcl1 & Hca1 & Hpg1 & Hw1).
    { destruct Hinv as [Hp [Ho|[Hc|Hd]]].
      - destruct Ho as (_ & Her & _ & _ & _ & Hw & _).
        clear Hnew Hrun Hinv0 Hlate0 Hlate Hinv1 Hlate1.
        destruct s as [n tok host cn cl er ws w pg kp ca cr pa cs].
        cbn in Hp, Her, Hw, Hca, Hcl, Hpg, Hkp. subst.
        cbn -[wrap64] in Hrun1. injection Hrun1 as <-. by cbn -[wrap64].
      - destruct Hc as [? _]. congruence.
      - destruct Hd as [? _]. congruence. }
    exists s1. split; [done|]. split; [done|]. split; [done|].
    split; [done|]. split.
    + destruct Hinv1 as [Hp1 _]. unfold step. rewrite Hp1, Hca1. simpl.
      by rewrite Hw1.
    + intros evs' s' Hno Hrun'.
      pose proof (steps_keeps_sending true _ _ _ _ Hpg1 Hno Hrun') as Hpg'.
      pose proof (steps_session_invariant _ _ _ Hrun' Hinv1) as Hinv'.
      pose proof (steps_released_late _ _ _ Hrun' Hinv1 Hlate1) as Hlate'.
      destruct (sending_blocks_close true _ _ Hinv' Hpg') as (Hcr & Hw & _).
      split; [done|]. split; [done|]. split; [|done].
      destruct (ws_open s') eqn:Hws; [done|].
      destruct (Hlate' Hws) as [Hex _]. unfold goroutine_of in Hpg'.
      congruence.
  - exfalso. destruct Hinv as [Hp [Ho|[Hc|Hd]]].
    + destruct Ho as (_ & Her & _ & _ & _ & Hw & _).
      clear Hnew Hrun Hinv0 Hlate0 Hlate.
      destruct s as [n tok host cn cl er ws w pg kp ca cr pa cs].
      cbn in Hp, Her, Hw, Hca, Hcl, Hpg, Hkp. subst.
      cbn -[wrap64] in Hrun1. discriminate.
    + destruct Hc as [? _]. congruence.
    + destruct Hd as [? _]. congruence.
Qed.

(** A session pings; [close] is called with both goroutines at their
    [select]; a ping fails after [c.closed] was closed, and the call
    waits. *)
Lemma close_may_wait_for_ever_witness :
  ∃ log s0 s,
    newWebsocketClient sample_now accepting = (log, inl s0)
    ∧ steps pinging s0 = Some s
    ∧ ∃ s1,
        steps [EvCloseCall; EvCloseStep; EvCloseStep;
               EvPingTick
                 (Some (errors_New "did not receive a pong response"))] s
        = Some s1
        ∧ closed s1 = ChanClosed ∧ caller s1 = InClose AtWait
        ∧ pinger s1
          = Sending (errors_Wrap
                       (errors_New "did not receive a pong response")
                       "unable to ping signalr")
        ∧ step EvCloseStep s1 = None
        ∧ ∀ evs' s',
            EvReceiveErr true ∉ evs' → steps evs' s1 = Some s' →
            closes_returned s' = 0 ∧ 1 ≤ wg s' ∧ ws_open s' = true
            ∧ pinger s'
              = Sending (errors_Wrap
                           (errors_New "did not receive a pong response")
                           "unable to ping signalr").
Proof.
  evar (log : list call). evar (s0 : Session). evar (s : Session).
  assert (newWebsocketClient sample_now accepting = (log, inl s0)) as Hnew
    by (subst log s0; vm_compute; reflexivity).
  assert (steps pinging s0 = Some s) as Hrun
    by (subst s0 s; vm_compute; reflexivity).
  assert (caller s = Idle) as Hca by (subst s; vm_compute; reflexivity).
  assert (closed s = ChanOpen) as Hcl by (subst s; vm_compute; reflexivity).
  assert (pinger s = AtSelect) as Hpg by (subst s; vm_compute; reflexivity).
  assert (keeper s = AtSelect) as Hkp by (subst s; vm_compute; reflexivity).
  exists log, s0, s. split; [exact Hnew|]. split; [exact Hrun|].
  exact (close_may_wait_for_ever sample_now accepting log s0 pinging s
           (errors_New "did not receive a pong response")
           Hnew Hrun Hca Hcl Hpg Hkp).
Defined.

(** A call of [Read] on a closed session. *)
Lemma Read_closed k frame s r s' :
  session_invariant s → 1 ≤ closes_returned s →
  Read k frame s = Some (r, s') →
  s' = s
  ∧ (r = (0%Z, EmptyString, Some (errors_New "ws closed"))
     ∨ r = (0%Z, EmptyString, None)).
Proof.
  intros [Hp [Ho|[Hc|Hd]]] Hcr.
  - destruct Ho as (_ & _ & _ & _ & _ & _ & Hcr0 & _). lia.
  - destruct Hc as (_ & _ & _ & Hcr0 & _). lia.
  - destruct Hd as (Hcl & Her & _ & Hpg & Hkp & _).
    unfold Read. rewrite Hp, Hcl, Her, Hpg, Hkp.
    destruct k as [|[]| |]; try done.
    + intros [= <- <-]. split; [done|by left].
    + intros [= <- <-]. split; [done|by right].
Qed.

Lemma reading_closed acts s rs s' :
  session_invariant s → 1 ≤ closes_returned s →
  reading acts s = Some (rs, s') →
  shared s' = shared s
  ∧ Forall (fun r => r = (0%Z, EmptyString, Some (errors_New "ws closed"))
                     ∨ r = (0%Z, EmptyString, None)) rs.
Proof.
  revert s rs. induction acts as [|[e|k frame] acts IH];
    intros s rs Hinv Hcr; simpl.
  - by intros [= <- <-].
  - destruct (step e s) as [s1|] eqn:Hstep; [|done]. intros Hrun.
    destruct (step_after_close _ _ _ Hinv Hcr Hstep) as [Hsh Hle].
    destruct (IH s1 rs) as [Hsh' Hrs]; [|lia|done|].
    + by eapply step_session_invariant.
    + split; [congruence|done].
  - destruct (Read k frame s) as [[r s1]|] eqn:Hread; [|done].
    destruct (reading acts s1) as [[rs1 s2]|] eqn:Hrun; [|done].
    intros [= <- <-].
    destruct (Read_closed _ _ _ _ _ Hinv Hcr Hread) as [-> Hr].
    destruct (IH s rs1 Hinv Hcr Hrun) as [Hsh Hrs].
    split; [done|by constructor].
Qed.

(** X18. Once a call of [close] has returned, [Read] does not read the
    socket any more, and it need not report an error: its [select] finds
    both [c.closed] and [c.err] closed, and returns the error [ws closed]
    from the first, or, from the second, no message and no error at all,
    the nil error received from the closed channel being wrapped to nil.
    So [ReadNextInterestingMessages] returns no message on a closed
    session: it passes over every result without an error, and ends with
    [read failed: ws closed] at the first [Read] that takes [c.closed].
    None of this changes the session. *)
Theorem Read_after_close json_Unmarshal now r log s0 evs s1 acts rs s2 :
  newWebsocketClient now r = (log, inl s0) →
  steps evs s0 = Some s1 →
  1 ≤ closes_returned s1 →
  reading acts s1 = Some (rs, s2) →
  shared s2 = shared s1
  ∧ (∀ frame,
       Read CaseClosed frame s2
       = Some ((0%Z, EmptyString, Some (errors_New "ws closed")), s2)
       ∧ Read CaseErrClosed frame s2 = Some ((0%Z, EmptyString, None), s2)
       ∧ Read CaseDefault frame s2 = None)
  ∧ match ReadNextInterestingMessages json_Unmarshal rs with
    | None => Forall (fun r => r = (0%Z, EmptyString, None)) rs
    | Some res =>
        res = Returns (None,
                       Some (errors_Wrap (errors_New "ws closed")
                               "read failed"))
    end.
Proof.
  intros Hnew Hrun Hcr Hread.
  destruct (newWebsocketClient_session _ _ _ _ Hnew) as (_ & Hinv0 & _).
  pose proof (steps_session_invariant _ _ _ Hrun Hinv0) as Hinv1.
  destruct (reading_closed _ _ _ _ Hinv1 Hcr Hread) as [Hsh Hrs].
  split; [done|]. split.
  - pose proof (reading_session_invariant _ _ _ _ Hread Hinv1) as [Hp Hph].
    assert (closed s2 = ChanClosed ∧ err s2 = ChanClosed) as [Hcl Her].
    { destruct Hinv1 as [_ [Ho|[Hc|Hd]]].
      - destruct Ho as (_ & _ & _ & _ & _ & _ & Hcr0 & _). lia.
      - destruct Hc as (_ & _ & _ & Hcr0 & _). lia.
      - destruct Hd as (Hcl & Her & _). unfold shared in Hsh.
        split; congruence. }
    intros frame. unfold Read. by rewrite Hp, Hcl, Her.
  - clear Hread. induction Hrs as [|res rs [->| ->] Hrs IH]; simpl; [done..|].
    destruct (ReadNextInterestingMessages json_Unmarshal rs); [done|].
    by constructor.
Qed.

Lemma Read_after_close_witness :
  ∃ log s0 s1 rs s2,
    newWebsocketClient sample_now accepting = (log, inl s0)
    ∧ steps closing_once s0 = Some s1
    ∧ reading reads_after_close s1 = Some (rs, s2)
    ∧ rs = [(0%Z, EmptyString, None); (0%Z, EmptyString, None);
            (0%Z, EmptyString, Some (errors_New "ws closed"))]
    ∧ ReadNextInterestingMessages sample_decode rs
      = Some (Returns (None,
                       Some (errors_Wrap (errors_New "ws closed")
                               "read failed"))).
Proof.
  evar (log : list call). evar (s0 : Session). evar (s1 : Session).
  evar (rs : list read_result). evar (s2 : Session).
  assert (newWebsocketClient sample_now accepting = (log, inl s0)) as Hnew
    by (subst log s0; vm_compute; reflexivity).
  assert (steps closing_once s0 = Some s1) as Hrun
    by (subst s0 s1; vm_compute; reflexivity).
  assert (1 ≤ closes_returned s1) as Hcr
    by (subst s1; vm_compute; lia).
  assert (reading reads_after_close s1 = Some (rs, s2)) as Hread
    by (subst s1 rs s2; vm_compute; reflexivity).
  destruct (Read_after_close sample_decode sample_now accepting log s0
              closing_once s1 reads_after_close rs s2 Hnew Hrun Hcr Hread)
    as (_ & _ & Hnext).
  exists log, s0, s1, rs, s2. split; [exact Hnew|]. split; [exact Hrun|].
  split; [exact Hread|]. split; [subst rs; reflexivity|].
  destruct (ReadNextInterestingMessages sample_decode rs) as [res|] eqn:Hres;
    [by rewrite Hnext|].
  exfalso. subst rs. vm_compute in Hres. discriminate.
Defined.

(** The steps of a session keep [sends_background]. *)
Lemma step_sends_background ev s s' :
  step ev s = Some s' → sends_background s → sends_background s'.
Proof.
  destruct s as [n tok host cn cl er ws w pg kp ca cr pa cs].
  unfold step, sends_background, goroutine_of. simpl.
  intros Hstep Hs. destruct pa; [done|].
  pose proof (Hs true) as Hpg. pose proof (Hs false) as Hkp.
  simpl in Hpg, Hkp. clear Hs.
  destruct ev as [reply| |reply| |[]|[]| |]; simpl in Hstep.
  - destruct pg; try done. injection Hstep as <-. simpl.
    intros [] e1; [|by apply Hkp].
    destruct reply as [e0|]; [|done]. intros [= <-]. exists e0. by left.
  - destruct pg, cl; try done. injection Hstep as <-. simpl.
    intros [] e1; [done|by apply Hkp].
  - destruct kp; try done.
    destruct reply as [e0|]; injection Hstep as <-; simpl;
      intros [] e1; try (by apply Hpg); try done.
    intros [= <-]. exists e0. by right.
  - destruct kp, cl; try done. injection Hstep as <-. simpl.
    intros [] e1; [by apply Hpg|done].
  - destruct pg, er; try done. injection Hstep as <-. simpl.
    intros [] e1; [done|by apply Hkp].
  - destruct kp, er; try done. injection Hstep as <-. simpl.
    intros [] e1; [by apply Hpg|done].
  - destruct pg, er; try done. injection Hstep as <-. simpl.
    intros [] e1; [by apply Hpg|by apply Hkp].
  - destruct kp, er; try done. injection Hstep as <-. simpl.
    intros [] e1; [by apply Hpg|by apply Hkp].
  - destruct ca; try done. injection Hstep as <-. simpl.
    intros [] e1; [by apply Hpg|by apply Hkp].
  - destruct ca as [|pc]; [done|].
    destruct pc; simpl in Hstep.
    + destruct cl; injection Hstep as <-; simpl;
        (intros [] e1; [by apply Hpg|by apply Hkp]).
    + destruct cl; injection Hstep as <-; simpl;
        (intros [] e1; [by apply Hpg|by apply Hkp]).
    + destruct w; [|done]. injection Hstep as <-. simpl.
      intros [] e1; [by apply Hpg|by apply Hkp].
    + injection Hstep as <-. simpl.
      intros [] e1; [by apply Hpg|by apply Hkp].
    + destruct er; injection Hstep as <-; simpl;
        (intros [] e1; [by apply Hpg|by apply Hkp]).
Qed.

(** X19. What [Read] returns, in every run of a session: what the socket
    gave it, when its [select] took [default]; or no message and the error
    [ws closed]; or no message and the error of a background goroutine,
    which reads [connection broken: unable to ping signalr: ...] or
    [connection broken: unable to ping WSS: ...]; or no message and no
    error. *)
Theorem Read_results now r log s0 acts rs s :
  newWebsocketClient now r = (log, inl s0) →
  reading acts s0 = Some (rs, s) →
  Forall (fun res =>
            (∃ frame, CallRead CaseDefault frame ∈ acts ∧ res = frame)
            ∨ res = (0%Z, EmptyString, None)
            ∨ ∃ e, res = (0%Z, EmptyString, Some e)
                   ∧ (e = errors_New "ws closed"
                      ∨ ∃ e', background_error e'
                              ∧ e = errors_Wrap e' "connection broken")) rs.
Proof.
  intros Hnew.
  assert (sends_background s0) as Hs0.
  { revert Hnew. unfold newWebsocketClient.
    destruct (auth2_reply r); [|done]. destruct (negotiate_reply r); [|done].
    destruct (connect_reply r); [done|]. destruct (start_reply r); [done|].
    intros [= _ <-]. by intros []. }
  clear Hnew. revert s0 rs Hs0.
  induction acts as [|[ev|k frame] acts IH]; intros s0 rs Hs0; simpl.
  - intros [= <- _]. constructor.
  - destruct (step ev s0) as [s1|] eqn:Hstep; [|done]. intros Hrun.
    eapply Forall_impl; [apply (IH s1 rs); [|done]|].
    + by eapply step_sends_background.
    + intros res [(f & Hf & ->)|Hres]; [|by right].
      left. exists f. split; [by right|done].
  - destruct (Read k frame s0) as [[res s1]|] eqn:Hread; [|done].
    destruct (reading acts s1) as [[rs1 s2]|] eqn:Hrun; [|done].
    intros [= <- <-]. constructor.
    + revert Hread. unfold Read. destruct (panicked s0); [done|].
      destruct k as [|b| |].
      * destruct (closed s0); [done|]. intros [= <- _].
        right. right. eexists. split; [done|by left].
      * destruct (if b then pinger s0 else keeper s0) as [|e0|] eqn:Hb;
          try done.
        destruct (err s0); [|done].
        destruct (step (EvReceiveErr b) s0); [|done]. intros [= <- _].
        right. right. eexists. split; [done|]. right. exists e0.
        split; [|done]. by apply (Hs0 b).
      * destruct (err s0); [done|]. intros [= <- _]. right. by left.
      * destruct (closed s0), (err s0), (sending s0); try done.
        intros [= <- _]. left. exists frame. split; [by left|done].
    + eapply Forall_impl; [apply (IH s1 rs1); [|done]|].
      * destruct (Read_step _ _ _ _ _ Hread) as [->|(b & _ & Hb)]; [done|].
        by eapply step_sends_background.
      * intros res' [(f & Hf & ->)|Hres]; [|by right].
        left. exists f. split; [by right|done].
Qed.

(** A ping fails and a [Read] receives its error. *)
Lemma Read_results_witness :
  ∃ log s0 rs s,
    newWebsocketClient sample_now accepting = (log, inl s0)
    ∧ reading ((Event <$> failing_ping)
               ++ [CallRead (CaseErr true) (1%Z, "unread", None)]) s0
      = Some (rs, s)
    ∧ rs = [(0%Z, EmptyString,
             Some (errors_Wrap
                     (errors_Wrap
                        (errors_New "did not receive a pong response")
                        "unable to ping signalr")
                     "connection broken"))]
    ∧ Forall (fun res =>
                (∃ frame,
                   CallRead CaseDefault frame
                   ∈ (Event <$> failing_ping)
                     ++ [CallRead (CaseErr true) (1%Z, "unread", None)]
                   ∧ res = frame)
                ∨ res = (0%Z, EmptyString, None)
                ∨ ∃ e, res = (0%Z, EmptyString, Some e)
                       ∧ (e = errors_New "ws closed"
                          ∨ ∃ e', background_error e'
                                  ∧ e = errors_Wrap e' "connection broken"))
        rs.
Proof.
  evar (log : list call). evar (s0 : Session).
  evar (rs : list read_result). evar (s : Session).
  assert (newWebsocketClient sample_now accepting = (log, inl s0)) as Hnew
    by (subst log s0; vm_compute; reflexivity).
  assert (reading ((Event <$> failing_ping)
                   ++ [CallRead (CaseErr true) (1%Z, "unread", None)]) s0
          = Some (rs, s)) as Hrun
    by (subst s0 rs s; vm_compute; reflexivity).
  exists log, s0, rs, s. split; [exact Hnew|]. split; [exact Hrun|].
  split; [subst rs; reflexivity|].
  exact (Read_results sample_now accepting log s0 _ rs s Hnew Hrun).
Defined.

(** ** The address of the socket *)

(** X20. The address [connect] dials is made of the piece of the hub's
    address between its first and its second colon: for an address that is
    pieces without a colon, joined by colons, [wsUrl] is [wss:] followed by
    the second piece, so that the scheme is replaced, and a port, with
    everything after it, is dropped; and for an address without a colon
    the index expression panics. *)
Theorem wsUrl_takes_the_second_piece parts :
  parts ≠ [] → Forall (free_of ":"%char) parts →
  wsUrl (strings_Join parts ":"%char)
  = match parts with
    | _ :: p :: _ => Returns ("wss:" +:+ p)
    | _ => Panics "index out of range"
    end.
Proof.
  intros Hne Hfree. unfold wsUrl.
  rewrite (strings_Split_Join parts ":"%char Hne Hfree).
  by destruct parts as [|p0 [|p1 ps]].
Qed.

Lemma wsUrl_takes_the_second_piece_witness :
  wsUrl "https://hub.example:8443/live" = Returns "wss://hub.example"
  ∧ wsUrl "hub.example" = Panics "index out of range".
Proof.
  split.
  - apply (wsUrl_takes_the_second_piece
             ["https"; "//hub.example"; "8443/live"]); [done|].
    repeat constructor; vm_compute; intuition discriminate.
  - apply (wsUrl_takes_the_second_piece ["hub.example"]); [done|].
    repeat constructor; vm_compute; intuition discriminate.
Defined.

(** ** The API client *)

Lemma opened_app t1 t2 : opened (t1 ++ t2) = opened t1 ++ opened t2.
Proof. apply omap_app. Qed.

Lemma closed_sessions_app t1 t2 :
  closed_sessions (t1 ++ t2) = closed_sessions t1 ++ closed_sessions t2.
Proof. apply omap_app. Qed.

(** One call: it closes the session held, if it closes one, before it
    opens one, and it opens one only when none is held. *)
Lemma api_step_sessions a c eff c' :
  api_step a c = (eff, c') →
  option_list (ws c) ++ opened eff
  = closed_sessions eff ++ option_list (ws c')
  ∧ debug c' = debug c.
Proof.
  destruct c as [d [w|]]; destruct a as [[w1|e1]| |[w1|e1]];
    intros [= <- <-]; by cbn.
Qed.

(** X21. The client holds at most one session and leaks none: after any
    sequence of calls of [ConnectWebsocket], [CloseWebsocket] and
    [ReconnectWebsocket] on the client that [NewAPIClient] returns, whatever
    the handshakes return, the sessions opened so far are, in the order
    they were opened, the sessions closed so far, followed by the session
    the client holds, if it holds one.  So a session is opened only after
    every earlier one was closed, and [close] is called on a session
    once. *)
Theorem APIClient_holds_the_one_open_session login d c l :
  NewAPIClient login d = (Some c, None) →
  let r := api_run l c in
  opened r.1 = closed_sessions r.1 ++ option_list (ws r.2).
Proof.
  intros Hnew. cbv zeta.
  assert (ws c = None) as Hws.
  { revert Hnew. unfold NewAPIClient. destruct login; [done|].
    by intros [= <-]. }
  assert (∀ c, option_list (ws c) ++ opened (api_run l c).1
               = closed_sessions (api_run l c).1
                 ++ option_list (ws (api_run l c).2)) as Hgen.
  { clear. induction l as [|a l IH]; intros c; simpl.
    - by rewrite app_nil_r.
    - destruct (api_step a c) as [eff c1] eqn:Ha.
      specialize (IH c1). destruct (api_run l c1) as [eff' c2]. simpl in *.
      destruct (api_step_sessions _ _ _ _ Ha) as [Hs _].
      rewrite opened_app, closed_sessions_app, app_assoc, Hs.
      by rewrite <- !app_assoc, IH. }
  specialize (Hgen c). by rewrite Hws in Hgen.
Qed.

(** A client connects twice, fails to reconnect, closes, and reconnects. *)
Lemma APIClient_holds_the_one_open_session_witness :
  opened (api_run sample_api_calls {| debug := true; ws := None |}).1
  = [7; 9]
  ∧ closed_sessions
      (api_run sample_api_calls {| debug := true; ws := None |}).1
    ++ option_list
         (ws (api_run sample_api_calls {| debug := true; ws := None |}).2)
    = [7] ++ [9].
Proof.
  pose proof (APIClient_holds_the_one_open_session None true
                {| debug := true; ws := None |} sample_api_calls eq_refl)
    as Hheld.
  cbv zeta in Hheld. split.
  - vm_compute. reflexivity.
  - rewrite <- Hheld. vm_compute. reflexivity.
Defined.
